(** * go-shutil: a shallow embedding of [errors.go] and [file.go]

    The package is a thin layer of control flow over the Go standard
    library ([os], [io], [io/ioutil], [path/filepath], [log]).  The
    standard library is not part of the package, so it enters the
    development as an interface, [OS]; the package's functions are
    written once, over any implementation of that interface, in a state
    monad over the world the operating system keeps.  A small in-memory
    file system, [Sim], implements the interface so that every function
    can be run on concrete inputs. *)

From Stdlib Require Import ZArith String List Bool Lia Ascii.
Import ListNotations.
Local Open Scope string_scope.
Local Open Scope Z_scope.

(** ** Errors *)

(** The [syscall.Errno] values that the simulated file system raises. *)
Inductive Errno : Type :=
| ENOENT | EEXIST | ENOTDIR | EISDIR | ENOTEMPTY | ELOOP | ENOSPC | EINVAL | EBADF.

(** Values of Go's [error] interface that can flow through the package:
    the three error types of [errors.go], [*os.PathError] for the errors
    of the operating system, and [errors.New] strings for anything a
    caller-supplied callback may return. *)
Inductive error : Type :=
| SameFileError (Src Dst : string)
| SpecialFileError (File : string)
| CopyNotCompleteError (Src Dst : string)
| PathError (Op Path : string) (Err : Errno)
| errorString (s : string).

Definition Errno_Error (e : Errno) : string :=
  match e with
  | ENOENT => "no such file or directory"
  | EEXIST => "file exists"
  | ENOTDIR => "not a directory"
  | EISDIR => "is a directory"
  | ENOTEMPTY => "directory not empty"
  | ELOOP => "too many levels of symbolic links"
  | ENOSPC => "no space left on device"
  | EINVAL => "invalid argument"
  | EBADF => "bad file descriptor"
  end.

(** The [Error()] methods of [errors.go] ([fmt.Sprintf] with [%s] only). *)
Definition Error (e : error) : string :=
  match e with
  | SameFileError Src Dst => Src ++ " and " ++ Dst ++ " are the same file"
  | SpecialFileError File => "`" ++ File ++ "` is a named pipe"
  | CopyNotCompleteError Src Dst => "copy " ++ Src ++ " to " ++ Dst ++ " not complete"
  | PathError Op Path Err => Op ++ " " ++ Path ++ ": " ++ Errno_Error Err
  | errorString s => s
  end.

(** [os.IsNotExist]. *)
Definition os_IsNotExist (err : error) : bool :=
  match err with
  | PathError _ _ ENOENT => true
  | _ => false
  end.

(** A Go call returning [(T, error)] whose value is only meaningful when
    the error is nil. *)
Inductive result (A : Type) : Type :=
| Ok (a : A)
| Err (err : error).
Arguments Ok {A} a.
Arguments Err {A} err.

(** ** [os.FileInfo] and [os.FileMode] *)

(** [os.FileMode] is a [uint32]; the type bits sit at the top. *)
Definition ModeDir : Z := Z.shiftl 1 31.
Definition ModeSymlink : Z := Z.shiftl 1 27.
Definition ModeNamedPipe : Z := Z.shiftl 1 25.

(** What the package reads from an [os.FileInfo]: [Name()], [Size()],
    [Mode()], and the device and inode numbers that [os.SameFile] reads
    from [Sys()]. *)
Record FileInfo : Type := {
  Name : string;
  Size : Z;
  Mode : Z;
  Dev : Z;
  Ino : Z
}.

Definition IsDir (fi : FileInfo) : bool :=
  negb (Z.land (Mode fi) ModeDir =? 0).

(** [os.SameFile]: identity of the underlying file, not of the path. *)
Definition os_SameFile (fi1 fi2 : FileInfo) : bool :=
  (Dev fi1 =? Dev fi2) && (Ino fi1 =? Ino fi2).

(** [mode & bit == bit], as the source tests the type bits. *)
Definition hasMode (mode bit : Z) : bool :=
  Z.land mode bit =? bit.

(** An argument of [log.Printf]. *)
Inductive LogArg : Type :=
| LogString (s : string)
| LogInt (n : Z).

(** ** The state monad of a Go function running against a world [W] *)

Definition M (W A : Type) : Type := W -> A * W.

Definition ret {W A : Type} (a : A) : M W A :=
  fun w => (a, w).

Definition bind {W A B : Type} (m : M W A) (k : A -> M W B) : M W B :=
  fun w => let (a, w') := m w in k a w'.

(** A call that inspects the world and leaves it as it is. *)
Definition read {W A : Type} (f : W -> A) : M W A :=
  fun w => (f w, w).

(** [defer d] followed by [body]: the deferred call runs once the body
    has produced the function's results, which it cannot change. *)
Definition defer {W A B : Type} (d : M W B) (body : M W A) : M W A :=
  bind body (fun a => bind d (fun _ => ret a)).

Declare Scope go_scope.
Delimit Scope go_scope with go.
Notation "x <- m ;; k" := (bind m (fun x => k))
  (at level 61, m at next level, right associativity) : go_scope.
Notation "' pat <- m ;; k" := (bind m (fun x => match x with pat => k end))
  (at level 61, pat pattern, m at next level, right associativity) : go_scope.
Local Open Scope go_scope.

(** ** The standard-library interface *)

(** The calls the package makes into the Go standard library.  [os.Stat],
    [os.Lstat], [os.Readlink] and [ioutil.ReadDir] inspect the file
    system; the others may change the world. *)
Class OS (W : Type) : Type := {
  File : Type;
  os_Stat : string -> W -> result FileInfo;
  os_Lstat : string -> W -> result FileInfo;
  os_Readlink : string -> W -> result string;
  ioutil_ReadDir : string -> W -> result (list FileInfo);
  os_Symlink : string -> string -> M W (option error);
  os_Open : string -> M W (result File);
  os_Create : string -> M W (result File);
  File_Close : File -> M W (option error);
  io_Copy : File -> File -> M W (Z * option error);
  os_MkdirAll : string -> Z -> M W (option error);
  os_Remove : string -> M W (option error);
  log_Printf : string -> list LogArg -> M W unit;
  filepath_Join : string -> string -> string;
  filepath_Base : string -> string
}.

(** ** [file.go] *)

Record CopyOptions : Type := {
  FollowSymlinks : bool
}.

Section Shutil.

Context {W : Type} {os : OS W}.

(** [CopyFile], lines 19-82.  Every [return] of the source is a [ret] of
    the same pair here. *)
Definition CopyFile (src dst : string) (options : option CopyOptions)
  : M W (string * option error) :=
  let followSymlinks :=
    match options with
    | Some o => FollowSymlinks o
    | None => true
    end in
  srcStat <- read (os_Stat src) ;;
  match srcStat with
  | Err err => ret ("", Some err)
  | Ok srcInfo =>
    if hasMode (Mode srcInfo) ModeNamedPipe then
      ret ("", Some (SpecialFileError src))
    else
      (* lines 47-81, reached when none of the checks on dst returns *)
      let transfer : M W (string * option error) :=
        if negb followSymlinks && hasMode (Mode srcInfo) ModeSymlink then
          srcOrigin <- read (os_Readlink src) ;;
          match srcOrigin with
          | Err err => ret ("", Some err)
          | Ok srcOrigin =>
            err <- os_Symlink srcOrigin dst ;;
            match err with
            | Some err => ret ("", Some err)
            | None => ret (dst, None)
            end
          end
        else
          fsrc <- os_Open src ;;
          match fsrc with
          | Err err => ret ("", Some err)
          | Ok fsrc =>
            defer (File_Close fsrc) (
              fdst <- os_Create dst ;;
              match fdst with
              | Err err => ret ("", Some err)
              | Ok fdst =>
                defer (File_Close fdst) (
                  '(size, err) <- io_Copy fdst fsrc ;;
                  match err with
                  | Some err => ret ("", Some err)
                  | None =>
                    if negb (size =? Size srcInfo) then
                      _ <- log_Printf "%s: %d/%d copied"
                             [LogString src; LogInt size; LogInt (Size srcInfo)] ;;
                      ret ("", Some (CopyNotCompleteError src dst))
                    else
                      ret (dst, None)
                  end)
              end)
          end in
      dstStat <- read (os_Stat dst) ;;
      match dstStat with
      | Ok dstInfo =>
        if os_SameFile srcInfo dstInfo then
          ret ("", Some (SameFileError src dst))
        else if hasMode (Mode dstInfo) ModeNamedPipe then
          ret ("", Some (SpecialFileError dst))
        else transfer
      | Err err =>
        if negb (os_IsNotExist err) then ret ("", Some err)
        else transfer
      end
  end.

(** [CopyStat], lines 88-91: a stub. *)
Definition CopyStat (src dst : string) (options : option CopyOptions)
  : M W (option error) :=
  ret None.

(** [Copy2], lines 100-125. *)
Definition Copy2 (src dst : string) (options : option CopyOptions)
  : M W (string * option error) :=
  let followSymlinks :=
    match options with
    | Some o => FollowSymlinks o
    | None => true
    end in
  dstStat <- read (os_Stat dst) ;;
  let dst :=
    match dstStat with
    | Ok dstInfo =>
      if IsDir dstInfo then filepath_Join dst (filepath_Base src) else dst
    | Err _ => dst
    end in
  '(_, err) <- CopyFile src dst (Some {| FollowSymlinks := followSymlinks |}) ;;
  match err with
  | Some err => ret ("", Some err)
  | None =>
    err <- CopyStat src dst (Some {| FollowSymlinks := followSymlinks |}) ;;
    match err with
    | Some err => ret ("", Some err)
    | None => ret (dst, None)
    end
  end.

(** *** [CopyTree] *)

Record CopyTreeOptions : Type := {
  Symlinks : bool;
  Ignore : option (string -> list FileInfo -> M W (list string));
  CopyFunction :
    option (string -> string -> option CopyOptions -> M W (string * option error));
  IgnoreDanglingSymlinks : bool
}.

(** The calls [CopyTree] makes outside its own body, each with what it
    was given and what it answered.  A run of [CopyTree] yields the list
    of the calls it made, in order; the calls of nested [CopyTree]s are
    part of that list. *)
Inductive Event : Type :=
| EvStat (name : string) (r : result FileInfo)
| EvReadDir (dirname : string) (r : result (list FileInfo))
| EvIgnore (src : string) (subs : list FileInfo) (names : list string)
| EvMkdirAll (path : string) (perm : Z) (err : option error)
| EvLstat (name : string) (r : result FileInfo)
| EvCopyFunction (src dst : string) (options : option CopyOptions)
    (r : string * option error).

(** A function that may recurse without bound: [None] when the fuel ran
    out, otherwise the results, the world and the calls made. *)
Definition T (A : Type) : Type := W -> option (A * W * list Event).

Definition retT {A : Type} (a : A) : T A :=
  fun w => Some (a, w, []).

Definition bindT {A B : Type} (m : T A) (k : A -> T B) : T B :=
  fun w =>
    match m w with
    | None => None
    | Some (a, w', tr) =>
      match k a w' with
      | None => None
      | Some (b, w'', tr') => Some (b, w'', (tr ++ tr')%list)
      end
    end.

(** An outside call, recorded. *)
Definition call {A : Type} (ev : A -> Event) (m : M W A) : T A :=
  fun w => let (a, w') := m w in Some (a, w', [ev a]).

(** A call into the package itself, not recorded. *)
Definition lift {A : Type} (m : M W A) : T A :=
  fun w => let (a, w') := m w in Some (a, w', []).

Definition diverge {A : Type} : T A :=
  fun _ => None.

Notation "x <~ m ;; k" := (bindT m (fun x => k))
  (at level 61, m at next level, right associativity) : go_scope.
Notation "' pat <~ m ;; k" := (bindT m (fun x => match x with pat => k end))
  (at level 61, pat pattern, m at next level, right associativity) : go_scope.

(** Lines 194-200: the inner loop that compares [sub.Name()] with every
    ignored name. *)
Fixpoint isIgnored (name : string) (ignoredNames : list string) : bool :=
  match ignoredNames with
  | [] => false
  | ignoredName :: ignoredNames' =>
    if String.eqb name ignoredName then true
    else isIgnored name ignoredNames'
  end.

(** Lines 193-227: the loop over [subs].  [Some err] is the loop left by
    [return "", err]; [None] is the loop run to its end.  [rec] is
    [CopyTree] itself. *)
Fixpoint copyEntries
  (rec : string -> string -> option CopyTreeOptions -> T (string * option error))
  (copyFunction : string -> string -> option CopyOptions -> M W (string * option error))
  (src dst : string) (options : option CopyTreeOptions)
  (ignoredNames : list string) (subs : list FileInfo) : T (option error) :=
  match subs with
  | [] => retT None
  | sub :: subs' =>
    if isIgnored (Name sub) ignoredNames then
      copyEntries rec copyFunction src dst options ignoredNames subs'
    else
      let subSrc := filepath_Join src (Name sub) in
      let subDst := filepath_Join dst (Name sub) in
      subSrcStat <~ call (EvLstat subSrc) (read (os_Lstat subSrc)) ;;
      match subSrcStat with
      | Err err => retT (Some err)
      | Ok subSrcInfo =>
        if hasMode (Mode subSrcInfo) ModeSymlink then
          (* TODO *)
          copyEntries rec copyFunction src dst options ignoredNames subs'
        else if IsDir subSrcInfo then
          '(_, err) <~ rec subSrc subDst options ;;
          match err with
          | Some err => retT (Some err)
          | None => copyEntries rec copyFunction src dst options ignoredNames subs'
          end
        else
          '(_, err) <~ call (EvCopyFunction subSrc subDst None)
                         (copyFunction subSrc subDst None) ;;
          match err with
          | Some err => retT (Some err)
          | None => copyEntries rec copyFunction src dst options ignoredNames subs'
          end
      end
  end.

(** Lines 168-171. *)
Definition copyFunctionOf (options : option CopyTreeOptions)
  : string -> string -> option CopyOptions -> M W (string * option error) :=
  match options with
  | Some {| CopyFunction := Some f |} => f
  | _ => Copy2
  end.

(** Lines 183-186. *)
Definition ignoredNamesOf (options : option CopyTreeOptions)
  (src : string) (subs : list FileInfo) : T (list string) :=
  match options with
  | Some {| Ignore := Some ignore |} => call (EvIgnore src subs) (ignore src subs)
  | _ => retT []
  end.

(** [CopyTree], lines 166-235.  [fuel] bounds the depth of the
    recursion. *)
Fixpoint CopyTree (fuel : nat) (src dst : string) (options : option CopyTreeOptions)
  : T (string * option error) :=
  match fuel with
  | O => diverge
  | S fuel' =>
    let copyFunction := copyFunctionOf options in
    srcStat <~ call (EvStat src) (read (os_Stat src)) ;;
    match srcStat with
    | Err err => retT ("", Some err)
    | Ok srcInfo =>
      listing <~ call (EvReadDir src) (read (ioutil_ReadDir src)) ;;
      match listing with
      | Err err => retT ("", Some err)
      | Ok subs =>
        ignoredNames <~ ignoredNamesOf options src subs ;;
        err <~ call (EvMkdirAll dst (Mode srcInfo)) (os_MkdirAll dst (Mode srcInfo)) ;;
        match err with
        | Some err => retT ("", Some err)
        | None =>
          err <~ copyEntries (CopyTree fuel') copyFunction src dst options
                   ignoredNames subs ;;
          match err with
          | Some err => retT ("", Some err)
          | None =>
            err <~ lift (CopyStat src dst None) ;;
            match err with
            | Some err => retT ("", Some err)
            | None => retT (dst, None)
            end
          end
        end
      end
    end
  end.

(** *** [RmTree] *)

Record RmTreeOptions : Type := {
  IgnoreErrors : bool;
  OnError : option ((string -> M W unit) -> string -> error -> M W unit)
}.

(** [RmTree], lines 250-256. *)
Definition RmTree (path : string) (options : option RmTreeOptions)
  : M W (option error) :=
  os_Remove path.

End Shutil.

Arguments CopyTreeOptions W : clear implicits.
Arguments RmTreeOptions W : clear implicits.
Arguments T W A : clear implicits.

(** * A simulated operating system

    An in-memory file system that implements [OS], for running the
    package on concrete trees.  Paths are absolute, slash-separated and
    already clean; a name is bound to an inode number, so two names bound
    to one number are hard links to one file.  Symbolic links hold
    absolute targets and are followed when they are the last component
    of a path.  Two knobs simulate a failing disk: [disk_free] bounds the
    bytes [io.Copy] can still write before it fails with [ENOSPC], and
    [short_write] makes [io.Copy] stop early without reporting an
    error. *)
Module Sim.

Inductive Kind : Type :=
| Regular (content : string)
| Directory
| Symlink (target : string)
| NamedPipe.

Record Inode : Type := {
  kind : Kind;
  perm : Z
}.

Record World : Type := {
  inodes : list (Z * Inode);
  names : list (string * Z);
  open_files : list (Z * (string * Z));
  next_ino : Z;
  next_fd : Z;
  disk_free : option Z;
  short_write : option Z;
  log : list (string * list LogArg)
}.

Definition with_fs (w : World) (tbl : list (Z * Inode)) (ns : list (string * Z))
  (next : Z) : World :=
  {| inodes := tbl; names := ns; open_files := open_files w; next_ino := next;
     next_fd := next_fd w; disk_free := disk_free w; short_write := short_write w;
     log := log w |}.

Definition with_open_files (w : World) (fs : list (Z * (string * Z))) (next : Z)
  : World :=
  {| inodes := inodes w; names := names w; open_files := fs; next_ino := next_ino w;
     next_fd := next; disk_free := disk_free w; short_write := short_write w;
     log := log w |}.

Definition with_disk_free (w : World) (free : option Z) : World :=
  {| inodes := inodes w; names := names w; open_files := open_files w;
     next_ino := next_ino w; next_fd := next_fd w; disk_free := free;
     short_write := short_write w; log := log w |}.

Definition with_short_write (w : World) (limit : option Z) : World :=
  {| inodes := inodes w; names := names w; open_files := open_files w;
     next_ino := next_ino w; next_fd := next_fd w; disk_free := disk_free w;
     short_write := limit; log := log w |}.

Definition with_log (w : World) (l : list (string * list LogArg)) : World :=
  {| inodes := inodes w; names := names w; open_files := open_files w;
     next_ino := next_ino w; next_fd := next_fd w; disk_free := disk_free w;
     short_write := short_write w; log := l |}.

(** ** Tables *)

Fixpoint lookup_name (p : string) (ns : list (string * Z)) : option Z :=
  match ns with
  | [] => None
  | (q, i) :: ns' => if String.eqb p q then Some i else lookup_name p ns'
  end.

Fixpoint lookup_Z {A : Type} (i : Z) (l : list (Z * A)) : option A :=
  match l with
  | [] => None
  | (j, a) :: l' => if i =? j then Some a else lookup_Z i l'
  end.

Fixpoint update_Z {A : Type} (i : Z) (a : A) (l : list (Z * A)) : list (Z * A) :=
  match l with
  | [] => [(i, a)]
  | (j, b) :: l' => if i =? j then (i, a) :: l' else (j, b) :: update_Z i a l'
  end.

Definition remove_Z {A : Type} (i : Z) (l : list (Z * A)) : list (Z * A) :=
  filter (fun e => negb (fst e =? i)) l.

Definition remove_name (p : string) (ns : list (string * Z)) : list (string * Z) :=
  filter (fun e => negb (String.eqb (fst e) p)) ns.

(** ** Paths *)

Definition slash : ascii := "/"%char.

Fixpoint split_from (cur s : string) : list string :=
  match s with
  | EmptyString => [cur]
  | String c s' =>
    if Ascii.eqb c slash then cur :: split_from "" s'
    else split_from (cur ++ String c "") s'
  end.

(** The non-empty components of a path. *)
Definition components (p : string) : list string :=
  filter (fun c => negb (String.eqb c "")) (split_from "" p).

Definition is_abs (p : string) : bool :=
  match p with
  | String c _ => Ascii.eqb c slash
  | EmptyString => false
  end.

Fixpoint ends_with_slash (p : string) : bool :=
  match p with
  | EmptyString => false
  | String c EmptyString => Ascii.eqb c slash
  | String _ p' => ends_with_slash p'
  end.

(** [filepath.Join] of two elements, on clean elements. *)
Definition Join (a b : string) : string :=
  if String.eqb a "" then b
  else if String.eqb b "" then a
  else if ends_with_slash a then a ++ b
  else a ++ "/" ++ b.

(** [filepath.Base]. *)
Definition Base (p : string) : string :=
  if String.eqb p "" then "."
  else List.last (components p) "/".

(** The path of the directory that holds [p], [None] for a path of one
    component. *)
Definition parent (p : string) : option string :=
  match rev (components p) with
  | [] => None
  | _ :: rest =>
    match rest with
    | [] => if is_abs p then Some "/" else None
    | _ => Some ((if is_abs p then "/" else "") ++ String.concat "/" (rev rest))
    end
  end.

(** [p] itself preceded by every directory above it, outermost first. *)
Fixpoint prefixes_from (base : string) (cs : list string) : list string :=
  match cs with
  | [] => []
  | c :: cs' => let q := Join base c in q :: prefixes_from q cs'
  end.

Definition prefixes (p : string) : list string :=
  prefixes_from (if is_abs p then "/" else "") (components p).

(** The name under which [p] is an entry of [dir], if it is one. *)
Definition child_name (dir p : string) : option string :=
  match parent p with
  | Some d => if String.eqb d dir then Some (Base p) else None
  | None => None
  end.

(** ** Inspecting the file system *)

Definition type_bits (k : Kind) : Z :=
  match k with
  | Regular _ => 0
  | Directory => ModeDir
  | Symlink _ => ModeSymlink
  | NamedPipe => ModeNamedPipe
  end.

Definition size_of (k : Kind) : Z :=
  match k with
  | Regular content => Z.of_nat (String.length content)
  | Directory => 4096
  | Symlink target => Z.of_nat (String.length target)
  | NamedPipe => 0
  end.

Definition info (p : string) (i : Z) (nd : Inode) : FileInfo :=
  {| Name := Base p; Size := size_of (kind nd);
     Mode := Z.lor (type_bits (kind nd)) (Z.land (perm nd) 4095); Dev := 1; Ino := i |}.

(** The inode a name is bound to, links not followed. *)
Definition inode_at (p : string) (w : World) : option (Z * Inode) :=
  match lookup_name p (names w) with
  | None => None
  | Some i =>
    match lookup_Z i (inodes w) with
    | None => None
    | Some nd => Some (i, nd)
    end
  end.

(** The path and inode reached from [p] by following symbolic links, at
    most [hops] of them. *)
Fixpoint resolve (hops : nat) (op p : string) (w : World)
  : result (string * Z * Inode) :=
  match inode_at p w with
  | None => Err (PathError op p ENOENT)
  | Some (i, nd) =>
    match kind nd with
    | Symlink target =>
      match hops with
      | O => Err (PathError op p ELOOP)
      | S hops' =>
        match resolve hops' op target w with
        | Ok r => Ok r
        | Err (PathError _ _ e) => Err (PathError op p e)
        | Err e => Err e
        end
      end
    | _ => Ok (p, i, nd)
    end
  end.

Definition max_hops : nat := 40.

Definition Lstat (p : string) (w : World) : result FileInfo :=
  match inode_at p w with
  | None => Err (PathError "lstat" p ENOENT)
  | Some (i, nd) => Ok (info p i nd)
  end.

Definition Stat (p : string) (w : World) : result FileInfo :=
  match resolve max_hops "stat" p w with
  | Err e => Err e
  | Ok (_, i, nd) => Ok (info p i nd)
  end.

Definition Readlink (p : string) (w : World) : result string :=
  match inode_at p w with
  | None => Err (PathError "readlink" p ENOENT)
  | Some (_, nd) =>
    match kind nd with
    | Symlink target => Ok target
    | _ => Err (PathError "readlink" p EINVAL)
    end
  end.

Fixpoint insert_by_name (fi : FileInfo) (l : list FileInfo) : list FileInfo :=
  match l with
  | [] => [fi]
  | x :: l' =>
    if String.leb (Name fi) (Name x) then fi :: l else x :: insert_by_name fi l'
  end.

(** The entries of the directory at path [dir], sorted by name. *)
Definition entries (dir : string) (w : World) : list FileInfo :=
  fold_right
    (fun e acc =>
       match child_name dir (fst e), lookup_Z (snd e) (inodes w) with
       | Some _, Some nd => insert_by_name (info (fst e) (snd e) nd) acc
       | _, _ => acc
       end)
    [] (names w).

Definition ReadDir (dir : string) (w : World) : result (list FileInfo) :=
  match resolve max_hops "open" dir w with
  | Err e => Err e
  | Ok (d, _, nd) =>
    match kind nd with
    | Directory => Ok (entries d w)
    | _ => Err (PathError "readdirent" dir ENOTDIR)
    end
  end.

(** ** Changing the file system *)

Definition is_directory (k : Kind) : bool :=
  match k with
  | Directory => true
  | _ => false
  end.

(** A fresh inode, bound to the name [p]. *)
Definition add_inode (p : string) (nd : Inode) (w : World) : World :=
  with_fs w (inodes w ++ [(next_ino w, nd)]) (names w ++ [(p, next_ino w)])
    (next_ino w + 1).

Definition parent_is_dir (p : string) (w : World) : bool :=
  match parent p with
  | None => false
  | Some d =>
    match resolve max_hops "stat" d w with
    | Ok (_, _, nd) => is_directory (kind nd)
    | Err _ => false
    end
  end.

Definition open_fd (p : string) (i : Z) (w : World) : result Z * World :=
  (Ok (next_fd w),
   with_open_files w (open_files w ++ [(next_fd w, (p, i))]) (next_fd w + 1)).

Definition NewSymlink (target p : string) : M World (option error) :=
  fun w =>
    match inode_at p w with
    | Some _ => (Some (PathError "symlink" p EEXIST), w)
    | None =>
      if parent_is_dir p w then
        (None, add_inode p {| kind := Symlink target; perm := 511 |} w)
      else (Some (PathError "symlink" p ENOENT), w)
    end.

Definition Open (p : string) : M World (result Z) :=
  fun w =>
    match resolve max_hops "open" p w with
    | Err e => (Err e, w)
    | Ok (_, i, _) => open_fd p i w
    end.

(** [os.Create]: an existing regular file is truncated, a missing one is
    created with mode 0644 in a directory that must exist. *)
Definition Create (p : string) : M World (result Z) :=
  fun w =>
    match inode_at p w with
    | None =>
      if parent_is_dir p w then
        open_fd p (next_ino w) (add_inode p {| kind := Regular ""; perm := 420 |} w)
      else (Err (PathError "open" p ENOENT), w)
    | Some _ =>
      match resolve max_hops "open" p w with
      | Err e => (Err e, w)
      | Ok (_, i, nd) =>
        match kind nd with
        | Regular _ =>
          open_fd p i
            (with_fs w (update_Z i {| kind := Regular ""; perm := perm nd |} (inodes w))
               (names w) (next_ino w))
        | Directory => (Err (PathError "open" p EISDIR), w)
        | _ => open_fd p i w
        end
      end
    end.

Definition Close (fd : Z) : M World (option error) :=
  fun w =>
    match lookup_Z fd (open_files w) with
    | None => (Some (PathError "close" "" EBADF), w)
    | Some _ => (None, with_open_files w (remove_Z fd (open_files w)) (next_fd w))
    end.

(** Appending [data] to the regular file [i]. *)
Definition append_to (i : Z) (nd : Inode) (old data : string) (w : World) : World :=
  with_fs w (update_Z i {| kind := Regular (old ++ data); perm := perm nd |} (inodes w))
    (names w) (next_ino w).

(** [io.Copy(fdst, fsrc)] between two open regular files. *)
Definition Copy (fdst fsrc : Z) : M World (Z * option error) :=
  fun w =>
    match lookup_Z fsrc (open_files w), lookup_Z fdst (open_files w) with
    | Some (ps, isrc), Some (pd, idst) =>
      match lookup_Z isrc (inodes w), lookup_Z idst (inodes w) with
      | Some ns, Some nd =>
        match kind ns, kind nd with
        | Regular content, Regular old =>
          let n := Z.of_nat (String.length content) in
          let wanted :=
            match short_write w with
            | Some k => Z.max 0 (Z.min k n)
            | None => n
            end in
          match disk_free w with
          | Some free =>
            if free <? wanted then
              let free := Z.max 0 free in
              ((free, Some (PathError "write" pd ENOSPC)),
               with_disk_free
                 (append_to idst nd old (substring 0 (Z.to_nat free) content) w)
                 (Some 0))
            else
              ((wanted, None),
               with_disk_free
                 (append_to idst nd old (substring 0 (Z.to_nat wanted) content) w)
                 (Some (free - wanted)))
          | None =>
            ((wanted, None),
             append_to idst nd old (substring 0 (Z.to_nat wanted) content) w)
          end
        | Directory, _ => ((0, Some (PathError "read" ps EISDIR)), w)
        | _, _ => ((0, Some (PathError "write" pd EINVAL)), w)
        end
      | _, _ => ((0, Some (PathError "read" ps EBADF)), w)
      end
    | _, _ => ((0, Some (PathError "read" "" EBADF)), w)
    end.

(** [os.MkdirAll]: every missing directory on the way to [p], then [p]. *)
Fixpoint mkdirs (ps : list string) (mode : Z) (w : World) : option error * World :=
  match ps with
  | [] => (None, w)
  | q :: ps' =>
    match inode_at q w with
    | None =>
      mkdirs ps' mode (add_inode q {| kind := Directory; perm := Z.land mode 511 |} w)
    | Some _ =>
      match resolve max_hops "mkdir" q w with
      | Err e => (Some e, w)
      | Ok (_, _, nd) =>
        if is_directory (kind nd) then mkdirs ps' mode w
        else (Some (PathError "mkdir" q ENOTDIR), w)
      end
    end
  end.

Definition MkdirAll (p : string) (mode : Z) : M World (option error) :=
  mkdirs (prefixes p) mode.

Definition has_entries (dir : string) (w : World) : bool :=
  existsb (fun e => match child_name dir (fst e) with Some _ => true | None => false end)
    (names w).

(** [os.Remove]: one name, and the inode with its last name; a directory
    only when it is empty. *)
Definition Remove (p : string) : M World (option error) :=
  fun w =>
    match inode_at p w with
    | None => (Some (PathError "remove" p ENOENT), w)
    | Some (i, nd) =>
      if is_directory (kind nd) && has_entries p w then
        (Some (PathError "remove" p ENOTEMPTY), w)
      else
        let ns := remove_name p (names w) in
        let tbl :=
          if existsb (fun e => snd e =? i) ns then inodes w
          else remove_Z i (inodes w) in
        (None, with_fs w tbl ns (next_ino w))
    end.

Definition Printf (format : string) (args : list LogArg) : M World unit :=
  fun w => (tt, with_log w (log w ++ [(format, args)])).

#[global] Instance os : OS World := {|
  File := Z;
  os_Stat := Stat;
  os_Lstat := Lstat;
  os_Readlink := Readlink;
  ioutil_ReadDir := ReadDir;
  os_Symlink := NewSymlink;
  os_Open := Open;
  os_Create := Create;
  File_Close := Close;
  io_Copy := Copy;
  os_MkdirAll := MkdirAll;
  os_Remove := Remove;
  log_Printf := Printf;
  filepath_Join := Join;
  filepath_Base := Base
|}.

(** ** Building worlds *)

Definition empty : World :=
  {| inodes := [(1, {| kind := Directory; perm := 493 |})];
     names := [("/", 1)];
     open_files := [];
     next_ino := 2;
     next_fd := 3;
     disk_free := None;
     short_write := None;
     log := [] |}.

Definition mkfile (p content : string) (w : World) : World :=
  add_inode p {| kind := Regular content; perm := 420 |} w.

Definition mkdir (p : string) (w : World) : World :=
  add_inode p {| kind := Directory; perm := 493 |} w.

Definition mklink (p target : string) (w : World) : World :=
  add_inode p {| kind := Symlink target; perm := 511 |} w.

Definition mkfifo (p : string) (w : World) : World :=
  add_inode p {| kind := NamedPipe; perm := 420 |} w.

(** A second name for the file at [old]. *)
Definition hardlink (old p : string) (w : World) : World :=
  match lookup_name old (names w) with
  | Some i => with_fs w (inodes w) (names w ++ [(p, i)]) (next_ino w)
  | None => w
  end.

(** What a full read of [p] yields, for a regular file. *)
Definition content_of (p : string) (w : World) : option string :=
  match resolve max_hops "open" p w with
  | Ok (_, _, nd) =>
    match kind nd with
    | Regular content => Some content
    | _ => None
    end
  | Err _ => None
  end.

End Sim.

(** * Specification-side vocabulary *)

Section Vocabulary.

Context {W : Type} {os : OS W}.

(** The checks of lines 35-45 let [CopyFile] through: [dst] is missing,
    or it is neither the file [src] is nor a named pipe. *)
Definition dst_accepted (srcInfo : FileInfo) (dst : string) (w : W) : Prop :=
  match os_Stat dst w with
  | Ok dstInfo =>
    os_SameFile srcInfo dstInfo = false /\
    hasMode (Mode dstInfo) ModeNamedPipe = false
  | Err err => os_IsNotExist err = true
  end.

Definition followSymlinksOf (options : option CopyOptions) : bool :=
  match options with
  | Some o => FollowSymlinks o
  | None => true
  end.

(** [CopyFile src dst options], started in [w], reaches line 70: [src]
    passed the checks and is not to be recreated as a link, both files
    were opened, and [io.Copy] answered [(size, cerr)]. *)
Definition regular_copy (src dst : string) (options : option CopyOptions) (w : W)
  (srcInfo : FileInfo) (size : Z) (cerr : option error) : Prop :=
  os_Stat src w = Ok srcInfo /\
  hasMode (Mode srcInfo) ModeNamedPipe = false /\
  dst_accepted srcInfo dst w /\
  negb (followSymlinksOf options) && hasMode (Mode srcInfo) ModeSymlink = false /\
  exists fsrc w1 fdst w2 w3,
    os_Open src w = (Ok fsrc, w1) /\
    os_Create dst w1 = (Ok fdst, w2) /\
    io_Copy fdst fsrc w2 = ((size, cerr), w3).

(** The error a call of [CopyTree]'s run came back with, if any. *)
Definition failure (ev : Event) : option error :=
  match ev with
  | EvStat _ (Err err) => Some err
  | EvReadDir _ (Err err) => Some err
  | EvMkdirAll _ _ (Some err) => Some err
  | EvLstat _ (Err err) => Some err
  | EvCopyFunction _ _ _ (_, Some err) => Some err
  | _ => None
  end.

(** The directories a run listed, with their entries, in order. *)
Fixpoint visited (tr : list Event) : list (string * list FileInfo) :=
  match tr with
  | [] => []
  | EvReadDir src (Ok subs) :: tr' => (src, subs) :: visited tr'
  | _ :: tr' => visited tr'
  end.

(** The invocations of the [Ignore] callback in a run, in order. *)
Fixpoint ignore_calls (tr : list Event) : list (string * list FileInfo) :=
  match tr with
  | [] => []
  | EvIgnore src subs _ :: tr' => (src, subs) :: ignore_calls tr'
  | _ :: tr' => ignore_calls tr'
  end.

(** The options every invocation of the copy function was given. *)
Fixpoint copy_options (tr : list Event) : list (option CopyOptions) :=
  match tr with
  | [] => []
  | EvCopyFunction _ _ options _ :: tr' => options :: copy_options tr'
  | _ :: tr' => copy_options tr'
  end.

(** No call of the list failed. *)
Definition quiet (tr : list Event) : Prop :=
  Forall (fun ev => failure ev = None) tr.

(** A run that came back with [err] stopped at the first call that
    failed: with an error, the last call made is the one that failed, it
    failed with that very error, and no call before it failed; without
    one, no call failed. *)
Definition stops_at_first_failure (err : option error) (tr : list Event) : Prop :=
  match err with
  | Some e => exists tr0 ev, tr = (tr0 ++ [ev])%list /\ failure ev = Some e /\ quiet tr0
  | None => quiet tr
  end.

(** Membership in the list of names the [Ignore] callback answered. *)
Definition named (names : list string) (sub : FileInfo) : bool :=
  if in_dec string_dec (Name sub) names then true else false.

(** How [CopyTree] ends once the loop over the entries is over. *)
Definition finish (dst : string) (r : option (option error * W * list Event))
  : option ((string * option error) * W * list Event) :=
  match r with
  | None => None
  | Some (Some err, w, tr) => Some (("", Some err), w, tr)
  | Some (None, w, tr) => Some ((dst, None), w, tr)
  end.

(** The [Ignore] callback of the options, if there is one. *)
Definition ignoreOf (options : option (CopyTreeOptions W))
  : option (string -> list FileInfo -> M W (list string)) :=
  match options with
  | Some o => Ignore o
  | None => None
  end.

(** The calls [pre], made before those of [r]. *)
Definition after {A : Type} (pre : list Event) (r : option (A * W * list Event))
  : option (A * W * list Event) :=
  match r with
  | None => None
  | Some (a, w, tr) => Some (a, w, (pre ++ tr)%list)
  end.

End Vocabulary.

Definition demo : Sim.World :=
  Sim.mklink "/l" "/d/a.txt"
    (Sim.mkfifo "/d/p"
       (Sim.mkfile "/d/sub/c.txt" "ccc"
          (Sim.mkdir "/d/sub"
             (Sim.mkfile "/d/b.txt" "bb"
                (Sim.mkfile "/d/a.txt" "hello"
                   (Sim.mkdir "/d" Sim.empty)))))).

(** [demo], with a second name for the pipe and one for a regular file. *)
Definition linked : Sim.World :=
  Sim.hardlink "/d/a.txt" "/h" (Sim.hardlink "/d/p" "/q" demo).

(** One file of five bytes on a disk with room for two more. *)
Definition nearly_full : Sim.World :=
  Sim.with_disk_free (Sim.mkfile "/a.txt" "hello" Sim.empty) (Some 2).

(** The same file under a writer that stops after two bytes and reports
    nothing. *)
Definition interrupted : Sim.World :=
  Sim.with_short_write (Sim.mkfile "/a.txt" "hello" Sim.empty) (Some 2).

Definition no_options : option (CopyTreeOptions Sim.World) := None.

(** Options whose [Ignore] callback answers the one name [p]. *)
Definition ignore_p : option (CopyTreeOptions Sim.World) :=
  Some {| Symlinks := false;
          Ignore := Some (fun _ _ => ret ["p"]);
          CopyFunction := None;
          IgnoreDanglingSymlinks := false |}.

Definition a_txt : FileInfo :=
  {| Name := "a.txt"; Size := 5; Mode := 420; Dev := 1; Ino := 3 |}.

Definition pipe_p : FileInfo :=
  {| Name := "p"; Size := 0; Mode := 33554852; Dev := 1; Ino := 7 |}.

Definition dir_sub : FileInfo :=
  {| Name := "sub"; Size := 4096; Mode := 2147484141; Dev := 1; Ino := 5 |}.


(** ** The checks of [CopyFile] *)

Section Checks.

Context {W : Type} {os : OS W}.

(** Lines 26-45: the [os.FileInfo] of [src] when every check lets
    [CopyFile] through, nothing when one of them returns. *)
Definition passes_checks (src dst : string) (w : W) : option FileInfo :=
  match os_Stat src w with
  | Err _ => None
  | Ok srcInfo =>
    if hasMode (Mode srcInfo) ModeNamedPipe then None
    else
      match os_Stat dst w with
      | Ok dstInfo =>
        if os_SameFile srcInfo dstInfo then None
        else if hasMode (Mode dstInfo) ModeNamedPipe then None
        else Some srcInfo
      | Err err => if os_IsNotExist err then Some srcInfo else None
      end
  end.

End Checks.

(** ** The simulated file system, seen from outside *)

Definition is_link (k : Sim.Kind) : bool :=
  match k with
  | Sim.Symlink _ => true
  | _ => false
  end.

(** [w'] has every name of [w], every link of [w], and the inode [i] as
    it is in [w]. *)
Definition keeps (i : Z) (w w' : Sim.World) : Prop :=
  (forall p k, Sim.lookup_name p (Sim.names w) = Some k ->
               Sim.lookup_name p (Sim.names w') = Some k) /\
  (forall k nd, Sim.lookup_Z k (Sim.inodes w) = Some nd ->
                is_link (Sim.kind nd) = true \/ k = i ->
                Sim.lookup_Z k (Sim.inodes w') = Some nd).

(** The next inode number and the next two descriptor numbers are not in
    use. *)
Definition fresh_numbers (w : Sim.World) : Prop :=
  Sim.lookup_Z (Sim.next_ino w) (Sim.inodes w) = None /\
  Sim.lookup_Z (Sim.next_fd w) (Sim.open_files w) = None /\
  Sim.lookup_Z (Sim.next_fd w + 1) (Sim.open_files w) = None.

(** Every name is bound to an inode of the table. *)
Definition names_bound (w : Sim.World) : bool :=
  forallb
    (fun e =>
       match Sim.lookup_Z (snd e) (Sim.inodes w) with
       | Some _ => true
       | None => false
       end)
    (Sim.names w).

(** What [Sim.Copy] writes of a file of [n] bytes: the number of bytes,
    the error it reports if any, and the room left on the disk. *)
Definition written_by (w : Sim.World) (n : Z) : Z * option Errno * option Z :=
  let wanted :=
    match Sim.short_write w with
    | Some k => Z.max 0 (Z.min k n)
    | None => n
    end in
  match Sim.disk_free w with
  | Some free =>
    if free <? wanted then (Z.max 0 free, Some ENOSPC, Some 0)
    else (wanted, None, Some (free - wanted))
  | None => (wanted, None, None)
  end.

(** The characters of a message, last first. *)
Definition backwards (s : string) : list ascii :=
  rev (list_ascii_of_string s).

(** ** Paths of a tree copy *)

Section TreePaths.

Context {W : Type} {os : OS W}.



(** Every call of the copy function in [tr] is given a destination right
    inside a directory that [os.MkdirAll] has made, without error,
    earlier in [tr] or before it ([made]). *)
Fixpoint prepared (made : list string) (tr : list Event) : Prop :=
  match tr with
  | [] => True
  | EvMkdirAll d _ None :: tr' => prepared (d :: made) tr'
  | EvCopyFunction _ d _ _ :: tr' =>
    (exists dir name, In dir made /\ d = filepath_Join dir name) /\
    prepared made tr'
  | _ :: tr' => prepared made tr'
  end.

(** Where [Copy2] copies to: lines 107-112. *)
Definition destinationOf (src dst : string) (w : W) : string :=
  match os_Stat dst w with
  | Ok dstInfo =>
    if IsDir dstInfo then filepath_Join dst (filepath_Base src) else dst
  | Err _ => dst
  end.

End TreePaths.

(** * Facts *)

Section Facts.

Context {W : Type} {os : OS W}.

Ltac run :=
  unfold CopyFile, Copy2, CopyStat, RmTree, defer, bind, read, ret in *.

Ltac cases :=
  repeat match goal with
  | H : context [match ?x with _ => _ end] |- _ => destruct x eqn:?
  end.

Lemma CopyFile_error_path (src dst : string) (options : option CopyOptions)
  (w w' : W) (p : string) (err : error) :
  CopyFile src dst options w = ((p, Some err), w') -> p = "".
Proof.
  intros H. run. cases; congruence.
Qed.

Lemma Copy2_error_path (src dst : string) (options : option CopyOptions)
  (w w' : W) (p : string) (err : error) :
  Copy2 src dst options w = ((p, Some err), w') -> p = "".
Proof.
  intros H. unfold Copy2, CopyStat, bind, read, ret in H.
  cases; congruence.
Qed.

(** ** Runs of the recursive functions *)

Lemma bindT_Some {A B : Type} (m : T W A) (k : A -> T W B) (w w'' : W)
  (b : B) (tr : list Event) :
  bindT m k w = Some (b, w'', tr) ->
  exists a w' tr1 tr2,
    m w = Some (a, w', tr1) /\ k a w' = Some (b, w'', tr2) /\ tr = (tr1 ++ tr2)%list.
Proof.
  unfold bindT. intros H.
  destruct (m w) as [[[a w'] tr1]|]; [|discriminate].
  destruct (k a w') as [[[b' w3] tr2]|] eqn:Hk; [|discriminate].
  inversion H; subst. exists a, w', tr1, tr2. auto.
Qed.

Lemma call_Some {A : Type} (ev : A -> Event) (m : M W A) (w w' : W) (a : A)
  (tr : list Event) :
  call ev m w = Some (a, w', tr) -> m w = (a, w') /\ tr = [ev a].
Proof.
  unfold call. destruct (m w) as [a0 w0]. intros H. inversion H; subst. auto.
Qed.

Lemma retT_Some {A : Type} (a a' : A) (w w' : W) (tr : list Event) :
  retT a w = Some (a', w', tr) -> a' = a /\ w' = w /\ tr = [].
Proof.
  unfold retT. intros H. inversion H; subst. auto.
Qed.

(** Breaking a completed run into the runs of its parts. *)
Ltac unbind :=
  repeat match goal with
  | H : bindT _ _ _ = Some _ |- _ =>
    let a := fresh "a" in let w := fresh "w" in
    let tr1 := fresh "tr" in let tr2 := fresh "tr" in
    let H1 := fresh "Hrun" in let H2 := fresh "Hrun" in let E := fresh "Etr" in
    apply bindT_Some in H; destruct H as (a & w & tr1 & tr2 & H1 & H2 & E)
  | H : call _ _ _ = Some _ |- _ =>
    let H1 := fresh "Hcall" in let E := fresh "Etr" in
    apply call_Some in H; destruct H as (H1 & E)
  | H : retT _ _ = Some _ |- _ =>
    let E1 := fresh "Eres" in let E2 := fresh "Ew" in let E3 := fresh "Etr" in
    apply retT_Some in H; destruct H as (E1 & E2 & E3)
  | H : diverge _ = Some _ |- _ => discriminate H
  end.

Lemma ignore_calls_app (tr1 tr2 : list Event) :
  ignore_calls (tr1 ++ tr2) = (ignore_calls tr1 ++ ignore_calls tr2)%list.
Proof.
  induction tr1 as [|[] tr1 IH]; simpl; rewrite ?IH; reflexivity.
Qed.

Lemma visited_app (tr1 tr2 : list Event) :
  visited (tr1 ++ tr2) = (visited tr1 ++ visited tr2)%list.
Proof.
  induction tr1 as [|[? ?|? []|? ? ?|? ? ?|? ?|? ? ? ?] tr1 IH];
    simpl; rewrite ?IH; reflexivity.
Qed.

Lemma copy_options_app (tr1 tr2 : list Event) :
  copy_options (tr1 ++ tr2) = (copy_options tr1 ++ copy_options tr2)%list.
Proof.
  induction tr1 as [|[] tr1 IH]; simpl; rewrite ?IH; reflexivity.
Qed.

Lemma stops_after_quiet (err : option error) (tr1 tr2 : list Event) :
  quiet tr1 -> stops_at_first_failure err tr2 ->
  stops_at_first_failure err (tr1 ++ tr2).
Proof.
  intros Hq H. destruct err as [e|]; simpl in *.
  - destruct H as (tr0 & ev & -> & Hev & Hq0).
    exists (tr1 ++ tr0)%list, ev. rewrite app_assoc. repeat split; auto.
    apply Forall_app; auto.
  - apply Forall_app; auto.
Qed.

Lemma isIgnored_named (names : list string) (sub : FileInfo) :
  isIgnored (Name sub) names = named names sub.
Proof.
  unfold named. induction names as [|n names IH]; simpl; [reflexivity|].
  destruct (String.eqb_spec (Name sub) n) as [E|E].
  - destruct (string_dec n (Name sub)); [reflexivity|congruence].
  - rewrite IH. destruct (string_dec n (Name sub)); [congruence|].
    destruct (in_dec string_dec (Name sub) names); reflexivity.
Qed.

Section Loop.

Variable rec : string -> string -> option (CopyTreeOptions W) ->
               T W (string * option error).
Variable copyFunction : string -> string -> option CopyOptions ->
                        M W (string * option error).
Variables (src dst : string) (options : option (CopyTreeOptions W)).
Variable ignoredNames : list string.

(** A property of call lists that holds of the empty list, of the calls
    of one entry and of every nested run, and that survives
    concatenation, holds of the calls of the whole loop. *)
Lemma copyEntries_calls (P : list Event -> Prop) :
  P [] ->
  (forall tr1 tr2, P tr1 -> P tr2 -> P (tr1 ++ tr2)%list) ->
  (forall name r, P [EvLstat name r]) ->
  (forall s d r, P [EvCopyFunction s d None r]) ->
  (forall s d w r w' tr, rec s d options w = Some (r, w', tr) -> P tr) ->
  forall subs w r w' tr,
    copyEntries rec copyFunction src dst options ignoredNames subs w
      = Some (r, w', tr) ->
    P tr.
Proof.
  intros Hnil Happ Hlstat Hcopy Hrec.
  induction subs as [|sub subs IH]; intros w r w' tr H; simpl in H.
  - unbind. subst. exact Hnil.
  - destruct (isIgnored (Name sub) ignoredNames); [eauto|].
    unbind. subst. apply Happ; [apply Hlstat|].
    destruct a as [subSrcInfo|err]; [|unbind; subst; exact Hnil].
    destruct (hasMode (Mode subSrcInfo) ModeSymlink); [eauto|].
    destruct (IsDir subSrcInfo).
    + unbind. destruct a as [p [err|]]; subst; apply Happ; eauto.
      unbind. subst. exact Hnil.
    + unbind. destruct a as [p [err|]]; subst; apply Happ; eauto.
      unbind. subst. exact Hnil.
Qed.

(** The loop stops at the first call that fails, given that nested runs
    do. *)
Lemma copyEntries_stops :
  (forall s d w p err w' tr,
     rec s d options w = Some ((p, err), w', tr) -> stops_at_first_failure err tr) ->
  forall subs w err w' tr,
    copyEntries rec copyFunction src dst options ignoredNames subs w
      = Some (err, w', tr) ->
    stops_at_first_failure err tr.
Proof.
  intros Hrec.
  induction subs as [|sub subs IH]; intros w err w' tr H; simpl in H.
  - unbind. subst. constructor.
  - destruct (isIgnored (Name sub) ignoredNames); [eauto|].
    unbind. subst.
    destruct a as [subSrcInfo|e].
    + apply stops_after_quiet; [repeat constructor|].
      destruct (hasMode (Mode subSrcInfo) ModeSymlink); [eauto|].
      destruct (IsDir subSrcInfo).
      * unbind. destruct a as [p [e|]]; subst.
        -- unbind. subst. rewrite app_nil_r. eauto.
        -- apply stops_after_quiet; [eapply (Hrec _ _ _ _ None); eauto|eauto].
      * unbind. destruct a as [p [e|]]; subst.
        -- unbind. subst. exists [], (EvCopyFunction
             (filepath_Join src (Name sub)) (filepath_Join dst (Name sub)) None
             (p, Some e)).
           repeat split. constructor.
        -- apply stops_after_quiet; [repeat constructor|eauto].
    + unbind. subst. exists [], (EvLstat (filepath_Join src (Name sub)) (Err e)).
      repeat split. constructor.
Qed.

(** Entries whose name is ignored take no part in the loop. *)
Lemma copyEntries_filter (subs : list FileInfo) (w : W) :
  copyEntries rec copyFunction src dst options ignoredNames subs w =
  copyEntries rec copyFunction src dst options []
    (filter (fun sub => negb (named ignoredNames sub)) subs) w.
Proof.
  revert w. induction subs as [|sub subs IH]; intros w; simpl; [reflexivity|].
  rewrite isIgnored_named.
  destruct (named ignoredNames sub); simpl; [apply IH|].
  unfold bindT.
  destruct (call _ _ w) as [[[[subSrcInfo|e] w1] tr1]|]; [|reflexivity|reflexivity].
  destruct (hasMode (Mode subSrcInfo) ModeSymlink); [rewrite IH; reflexivity|].
  destruct (IsDir subSrcInfo).
  - destruct (rec _ _ options w1) as [[[[p [e|]] w2] tr2]|]; try reflexivity.
    rewrite IH. reflexivity.
  - destruct (call _ _ w1) as [[[[p [e|]] w2] tr2]|]; try reflexivity.
    rewrite IH. reflexivity.
Qed.

(** Entries that come after the one the loop failed at change nothing. *)
Lemma copyEntries_app_fail (subs1 subs2 : list FileInfo) (w w' : W) (e : error)
  (tr : list Event) :
  copyEntries rec copyFunction src dst options ignoredNames subs1 w
    = Some (Some e, w', tr) ->
  copyEntries rec copyFunction src dst options ignoredNames (subs1 ++ subs2) w
    = Some (Some e, w', tr).
Proof.
  revert w w' tr. induction subs1 as [|sub subs1 IH]; intros w w' tr; simpl.
  - unfold retT. discriminate.
  - destruct (isIgnored (Name sub) ignoredNames); [apply IH|].
    unfold bindT.
    destruct (call _ _ w) as [[[[subSrcInfo|e0] w1] tr1]|]; [|auto|auto].
    destruct (hasMode (Mode subSrcInfo) ModeSymlink).
    + destruct (copyEntries _ _ _ _ _ _ subs1 w1) as [[[[e1|] w2] tr2]|] eqn:Hl;
        try discriminate.
      intros H. inversion H; subst. rewrite (IH _ _ _ Hl). reflexivity.
    + destruct (IsDir subSrcInfo).
      * destruct (rec _ _ options w1) as [[[[p [e1|]] w2] tr2]|]; auto.
        destruct (copyEntries _ _ _ _ _ _ subs1 w2) as [[[[e1|] w3] tr3]|] eqn:Hl;
          try discriminate.
        intros H. inversion H; subst. rewrite (IH _ _ _ Hl). reflexivity.
      * destruct (call _ _ w1) as [[[[p [e1|]] w2] tr2]|]; auto.
        destruct (copyEntries _ _ _ _ _ _ subs1 w2) as [[[[e1|] w3] tr3]|] eqn:Hl;
          try discriminate.
        intros H. inversion H; subst. rewrite (IH _ _ _ Hl). reflexivity.
Qed.

End Loop.

(** A loop that completed with one [rec] completes alike with any [rec]
    that gives the same results where the first gives any. *)
Lemma copyEntries_rec_mono
  (rec1 rec2 : string -> string -> option (CopyTreeOptions W) ->
               T W (string * option error))
  (copyFunction : string -> string -> option CopyOptions ->
                  M W (string * option error))
  (src dst : string) (options : option (CopyTreeOptions W))
  (ignoredNames : list string) :
  (forall s d w r, rec1 s d options w = Some r -> rec2 s d options w = Some r) ->
  forall subs w r,
    copyEntries rec1 copyFunction src dst options ignoredNames subs w = Some r ->
    copyEntries rec2 copyFunction src dst options ignoredNames subs w = Some r.
Proof.
  intros Hrec. induction subs as [|sub subs IH]; intros w r; simpl; [auto|].
  destruct (isIgnored (Name sub) ignoredNames); [apply IH|].
  unfold bindT.
  destruct (call _ _ w) as [[[[subSrcInfo|e0] w1] tr1]|]; [|auto|auto].
  destruct (hasMode (Mode subSrcInfo) ModeSymlink).
  - destruct (copyEntries rec1 _ _ _ _ _ subs w1) as [r1|] eqn:Hl;
      [|discriminate].
    rewrite (IH _ _ Hl). auto.
  - destruct (IsDir subSrcInfo).
    + destruct (rec1 _ _ options w1) as [[[[p err] w2] tr2]|] eqn:Hr;
        [|discriminate].
      rewrite (Hrec _ _ _ _ Hr). destruct err as [e|]; [auto|].
      destruct (copyEntries rec1 _ _ _ _ _ subs w2) as [r1|] eqn:Hl;
        [|discriminate].
      rewrite (IH _ _ Hl). auto.
    + destruct (call _ _ w1) as [[[[p [e|]] w2] tr2]|]; auto.
      destruct (copyEntries rec1 _ _ _ _ _ subs w2) as [r1|] eqn:Hl;
        [|discriminate].
      rewrite (IH _ _ Hl). auto.
Qed.

(** ** [CopyFile] and [Copy2] *)

(** C1, as amended: when [dst] exists and is the very file [src] is
    (identity of the file, as [os.SameFile] decides it, not of the path),
    and [src] is not a named pipe, [CopyFile] fails with [SameFileError]
    and hands back the world it was given: no path has changed. *)
Theorem CopyFile_same_file (src dst : string) (options : option CopyOptions)
  (w : W) (srcInfo dstInfo : FileInfo) :
  os_Stat src w = Ok srcInfo ->
  os_Stat dst w = Ok dstInfo ->
  os_SameFile srcInfo dstInfo = true ->
  hasMode (Mode srcInfo) ModeNamedPipe = false ->
  CopyFile src dst options w = (("", Some (SameFileError src dst)), w).
Proof.
  intros Hsrc Hdst Hsame Hpipe. run.
  rewrite Hsrc, Hpipe, Hdst, Hsame. reflexivity.
Qed.

(** C3, as amended: in a regular-file copy, an error of the copy call is
    returned as it is, whatever the number of bytes; when the copy call
    reports no error, a number of bytes other than the size [os.Stat]
    reported for [src] makes [CopyFile] fail with [CopyNotCompleteError],
    and the same number makes it succeed with [dst]. *)
Theorem CopyFile_copy_not_complete (src dst : string)
  (options : option CopyOptions) (w : W) (srcInfo : FileInfo) (size : Z)
  (cerr : option error) :
  regular_copy src dst options w srcInfo size cerr ->
  (forall e, cerr = Some e ->
     fst (CopyFile src dst options w) = ("", Some e)) /\
  (cerr = None -> size <> Size srcInfo ->
     fst (CopyFile src dst options w) = ("", Some (CopyNotCompleteError src dst))) /\
  (cerr = None -> size = Size srcInfo ->
     fst (CopyFile src dst options w) = (dst, None)).
Proof.
  intros (Hsrc & Hpipe & Hdst & Hbranch & fsrc & w1 & fdst & w2 & w3 &
          Hopen & Hcreate & Hcopy).
  assert (Hrun : fst (CopyFile src dst options w) =
                 match cerr with
                 | Some e => ("", Some e)
                 | None => if size =? Size srcInfo then (dst, None)
                           else ("", Some (CopyNotCompleteError src dst))
                 end).
  { unfold dst_accepted in Hdst. unfold followSymlinksOf in Hbranch. run.
    rewrite Hsrc, Hpipe.
    assert (Hclose : forall (r : string * option error) (w3 : W),
              fst (let (a, w4) := (let (a, w4) := (r, w3) in
                                   let (_, w5) := File_Close fdst w4 in (a, w5)) in
                   let (_, w5) := File_Close fsrc w4 in (a, w5)) = r).
    { intros r w3'. destruct (File_Close fdst w3') as [? w4].
      destruct (File_Close fsrc w4) as [? w5]. reflexivity. }
    destruct (os_Stat dst w) as [dstInfo|err];
      [destruct Hdst as [Hs Hp]; rewrite Hs, Hp|rewrite Hdst; simpl];
      rewrite Hbranch, Hopen, Hcreate, Hcopy;
      (destruct cerr as [e|];
       [apply Hclose
       |destruct (size =? Size srcInfo); simpl;
        [apply Hclose|destruct (log_Printf _ _ w3) as [? w3']; apply Hclose]]). }
  repeat split.
  - intros e ->. exact Hrun.
  - intros -> Hne. rewrite Hrun.
    destruct (Z.eqb_spec size (Size srcInfo)); [contradiction|reflexivity].
  - intros -> ->. rewrite Hrun, Z.eqb_refl. reflexivity.
Qed.

(** C6: when [dst] exists and is a directory, [Copy2] copies to
    [dst/basename(src)]: that path is what [CopyFile] and [CopyStat] are
    given, it is what [Copy2] returns when both succeed, and the error of
    the step that fails is what it returns otherwise. *)
Theorem Copy2_into_directory (src dst : string) (options : option CopyOptions)
  (w : W) (dstInfo : FileInfo) :
  os_Stat dst w = Ok dstInfo ->
  IsDir dstInfo = true ->
  let dst' := filepath_Join dst (filepath_Base src) in
  let policy := Some {| FollowSymlinks := followSymlinksOf options |} in
  Copy2 src dst options w =
    let '((_, err), w1) := CopyFile src dst' policy w in
    match err with
    | Some err => (("", Some err), w1)
    | None =>
      let '(err, w2) := CopyStat src dst' policy w1 in
      match err with
      | Some err => (("", Some err), w2)
      | None => ((dst', None), w2)
      end
    end.
Proof.
  intros Hdst Hdir dst' policy. subst dst' policy.
  unfold Copy2, followSymlinksOf, bind, read. rewrite Hdst, Hdir.
  destruct (CopyFile _ _ _ w) as [[? [err|]] w1]; reflexivity.
Qed.

(** C7, as amended: a [src] that is a named pipe makes [CopyFile] fail
    with [SpecialFileError] in the world it was given, so that no
    destination file is created; and, when [src] can be stat'ed, an
    existing [dst] that is a named pipe makes it fail with
    [SpecialFileError] too, given that a [src] reported to be the same
    file as that pipe is reported to be a pipe. *)
Theorem CopyFile_named_pipe (src dst : string) (options : option CopyOptions)
  (w : W) (srcInfo : FileInfo) :
  os_Stat src w = Ok srcInfo ->
  (hasMode (Mode srcInfo) ModeNamedPipe = true ->
     CopyFile src dst options w = (("", Some (SpecialFileError src)), w)) /\
  (forall dstInfo,
     os_Stat dst w = Ok dstInfo ->
     hasMode (Mode dstInfo) ModeNamedPipe = true ->
     (os_SameFile srcInfo dstInfo = true ->
        hasMode (Mode srcInfo) ModeNamedPipe = true) ->
     exists file,
       CopyFile src dst options w = (("", Some (SpecialFileError file)), w)).
Proof.
  intros Hsrc. split.
  - intros Hpipe. run. rewrite Hsrc, Hpipe. reflexivity.
  - intros dstInfo Hdst Hpipe Hsame. run. rewrite Hsrc.
    destruct (hasMode (Mode srcInfo) ModeNamedPipe) eqn:Hsp; [eauto|].
    rewrite Hdst.
    destruct (os_SameFile srcInfo dstInfo); [discriminate (Hsame eq_refl)|].
    rewrite Hpipe. eauto.
Qed.

(** ** [CopyTree] *)

(** One level of [CopyTree], call by call. *)
Lemma CopyTree_S (fuel : nat) (src dst : string)
  (options : option (CopyTreeOptions W)) (w : W) :
  CopyTree (S fuel) src dst options w =
    match os_Stat src w with
    | Err e => Some (("", Some e), w, [EvStat src (Err e)])
    | Ok srcInfo =>
      match ioutil_ReadDir src w with
      | Err e =>
        Some (("", Some e), w, [EvStat src (Ok srcInfo); EvReadDir src (Err e)])
      | Ok subs =>
        match ignoredNamesOf options src subs w with
        | None => None
        | Some (names, w1, tr1) =>
          let pre merr :=
            (EvStat src (Ok srcInfo) :: EvReadDir src (Ok subs) :: tr1
               ++ [EvMkdirAll dst (Mode srcInfo) merr])%list in
          match os_MkdirAll dst (Mode srcInfo) w1 with
          | (Some e, w2) => Some (("", Some e), w2, pre (Some e))
          | (None, w2) =>
            after (pre None)
              (finish dst
                 (copyEntries (CopyTree fuel) (copyFunctionOf options) src dst
                    options names subs w2))
          end
        end
      end
    end.
Proof.
  simpl. unfold bindT at 1. unfold call at 1. unfold read at 1.
  destruct (os_Stat src w) as [srcInfo|e]; [|reflexivity].
  unfold bindT at 1. unfold call at 1. unfold read at 1.
  destruct (ioutil_ReadDir src w) as [subs|e]; [|reflexivity].
  unfold bindT at 1.
  destruct (ignoredNamesOf options src subs w) as [[[names w1] tr1]|];
    [|reflexivity].
  unfold bindT at 1. unfold call at 1.
  destruct (os_MkdirAll dst (Mode srcInfo) w1) as [[e|] w2].
  - reflexivity.
  - unfold bindT at 1.
    destruct (copyEntries _ _ _ _ _ _ _ w2) as [[[[e|] w3] tr2]|]; simpl;
      [| |reflexivity].
    + rewrite ?app_nil_r, <- ?app_assoc. reflexivity.
    + rewrite ?app_nil_r, <- ?app_assoc. reflexivity.
Qed.

(** Fuel only bounds the depth: a run that completed completes with the
    same results on more fuel. *)
Lemma CopyTree_fuel_mono (fuel : nat) (options : option (CopyTreeOptions W)) :
  forall src dst w r,
    CopyTree fuel src dst options w = Some r ->
    CopyTree (S fuel) src dst options w = Some r.
Proof.
  induction fuel as [|fuel IH]; intros src dst w r H; [discriminate|].
  rewrite CopyTree_S in H. rewrite CopyTree_S.
  destruct (os_Stat src w) as [srcInfo|e]; [|exact H].
  destruct (ioutil_ReadDir src w) as [subs|e]; [|exact H].
  destruct (ignoredNamesOf options src subs w) as [[[names w1] tr1]|]; [|exact H].
  cbv zeta in *.
  destruct (os_MkdirAll dst (Mode srcInfo) w1) as [[e|] w2]; [exact H|].
  destruct (copyEntries (CopyTree fuel) _ _ _ _ _ _ w2) as [r1|] eqn:Hl;
    [|discriminate].
  rewrite (copyEntries_rec_mono _ _ _ _ _ _ _ IH _ _ _ Hl). exact H.
Qed.

Lemma ignoredNamesOf_run (options : option (CopyTreeOptions W)) (src : string)
  (subs : list FileInfo) (w : W) :
  ignoredNamesOf options src subs w =
    match ignoreOf options with
    | Some ignore =>
      let (names, w') := ignore src subs w in
      Some (names, w', [EvIgnore src subs names])
    | None => Some ([], w, [])
    end.
Proof.
  destruct options as [[? [ignore|] ? ?]|]; reflexivity.
Qed.

Lemma ignoredNamesOf_quiet (options : option (CopyTreeOptions W)) (src : string)
  (subs : list FileInfo) (w w1 : W) (names : list string) (tr1 : list Event) :
  ignoredNamesOf options src subs w = Some (names, w1, tr1) -> quiet tr1.
Proof.
  rewrite ignoredNamesOf_run. destruct (ignoreOf options) as [ignore|].
  - destruct (ignore src subs w). intros H. inversion H. repeat constructor.
  - intros H. inversion H. constructor.
Qed.

(** Taking a completed run of one level apart. *)
Ltac level H :=
  rewrite CopyTree_S in H;
  let srcInfo := fresh "srcInfo" in
  let subs := fresh "subs" in
  let names := fresh "names" in
  let w1 := fresh "w" in
  let tr1 := fresh "tr" in
  let w2 := fresh "w" in
  let e := fresh "e" in
  let Hign := fresh "Hign" in
  let Hloop := fresh "Hloop" in
  destruct (os_Stat _ _) as [srcInfo|e];
    [destruct (ioutil_ReadDir _ _) as [subs|e];
     [destruct (ignoredNamesOf _ _ _ _) as [[[names w1] tr1]|] eqn:Hign;
      [destruct (os_MkdirAll _ _ w1) as [[e|] w2];
       [|destruct (copyEntries _ _ _ _ _ _ _ w2) as [[[[e|] ?] ?]|] eqn:Hloop]
      |]
     |]
    |];
  simpl in H; try discriminate H; inversion H; subst; clear H.

Lemma CopyTree_error_path (fuel : nat) (src dst : string)
  (options : option (CopyTreeOptions W)) (w w' : W) (p : string) (err : error)
  (tr : list Event) :
  CopyTree fuel src dst options w = Some ((p, Some err), w', tr) -> p = "".
Proof.
  destruct fuel as [|fuel]; intros H; [discriminate|].
  level H; reflexivity.
Qed.

(** C10: whenever [CopyFile], [Copy2] or [CopyTree] returns a non-nil
    error, the path it returns is the empty string. *)
Theorem error_path_empty (src dst : string) (p : string) (err : error) (w w' : W) :
  (forall options,
     CopyFile src dst options w = ((p, Some err), w') -> p = "") /\
  (forall options,
     Copy2 src dst options w = ((p, Some err), w') -> p = "") /\
  (forall fuel options tr,
     CopyTree fuel src dst options w = Some ((p, Some err), w', tr) -> p = "").
Proof.
  repeat split; intros.
  - eapply CopyFile_error_path; eauto.
  - eapply Copy2_error_path; eauto.
  - eapply CopyTree_error_path; eauto.
Qed.

(** C5: a run of [CopyTree] stops at the first call that fails, be it a
    stat, a listing, the mkdir, or a copy-function call, at any depth of
    the recursion: the call that failed is the last one made, and its
    error is the one error returned.  Level by level: a failing
    [os.Stat], [ioutil.ReadDir] or [os.MkdirAll] is the result at once; so
    is a failing [os.Lstat], nested [CopyTree] or copy function in the
    loop, whatever entries are listed after the one that failed; and an
    error of the loop is the error of [CopyTree]. *)
Theorem CopyTree_fails_fast (fuel : nat) (src dst : string)
  (options : option (CopyTreeOptions W)) :
  let loop :=
    copyEntries (CopyTree fuel) (copyFunctionOf options) src dst options in
  (forall w p err w' tr,
     CopyTree fuel src dst options w = Some ((p, err), w', tr) ->
     stops_at_first_failure err tr) /\
  (forall w e,
     os_Stat src w = Err e ->
     CopyTree (S fuel) src dst options w
       = Some (("", Some e), w, [EvStat src (Err e)])) /\
  (forall w srcInfo e,
     os_Stat src w = Ok srcInfo ->
     ioutil_ReadDir src w = Err e ->
     CopyTree (S fuel) src dst options w
       = Some (("", Some e), w,
               [EvStat src (Ok srcInfo); EvReadDir src (Err e)])) /\
  (forall w srcInfo subs names w1 tr1 merr w2,
     os_Stat src w = Ok srcInfo ->
     ioutil_ReadDir src w = Ok subs ->
     ignoredNamesOf options src subs w = Some (names, w1, tr1) ->
     os_MkdirAll dst (Mode srcInfo) w1 = (merr, w2) ->
     let pre :=
       (EvStat src (Ok srcInfo) :: EvReadDir src (Ok subs) :: tr1
          ++ [EvMkdirAll dst (Mode srcInfo) merr])%list in
     (forall e, merr = Some e ->
        CopyTree (S fuel) src dst options w = Some (("", Some e), w2, pre)) /\
     (forall e w3 tr,
        merr = None ->
        loop names subs w2 = Some (Some e, w3, tr) ->
        CopyTree (S fuel) src dst options w
          = Some (("", Some e), w3, (pre ++ tr)%list))) /\
  (forall names sub rest w,
     let subSrc := filepath_Join src (Name sub) in
     let subDst := filepath_Join dst (Name sub) in
     ~ In (Name sub) names ->
     (forall e,
        os_Lstat subSrc w = Err e ->
        loop names (sub :: rest) w = Some (Some e, w, [EvLstat subSrc (Err e)])) /\
     (forall subSrcInfo p e w' tr,
        os_Lstat subSrc w = Ok subSrcInfo ->
        hasMode (Mode subSrcInfo) ModeSymlink = false ->
        IsDir subSrcInfo = true ->
        CopyTree fuel subSrc subDst options w = Some ((p, Some e), w', tr) ->
        loop names (sub :: rest) w
          = Some (Some e, w', EvLstat subSrc (Ok subSrcInfo) :: tr)) /\
     (forall subSrcInfo p e w',
        os_Lstat subSrc w = Ok subSrcInfo ->
        hasMode (Mode subSrcInfo) ModeSymlink = false ->
        IsDir subSrcInfo = false ->
        copyFunctionOf options subSrc subDst None w = ((p, Some e), w') ->
        loop names (sub :: rest) w
          = Some (Some e, w',
                  [EvLstat subSrc (Ok subSrcInfo);
                   EvCopyFunction subSrc subDst None (p, Some e)]))) /\
  (forall names subs rest w e w' tr,
     loop names subs w = Some (Some e, w', tr) ->
     loop names (subs ++ rest)%list w = Some (Some e, w', tr)).
Proof.
  intros loop. subst loop. repeat apply conj.
  - revert src dst.
    induction fuel as [|fuel IH]; intros src dst w p err w' tr H;
      [discriminate|].
    level H.
    + apply ignoredNamesOf_quiet in Hign.
      exists (EvStat src (Ok srcInfo) :: EvReadDir src (Ok subs) :: tr0),
        (EvMkdirAll dst (Mode srcInfo) (Some e)).
      repeat split. repeat constructor. exact Hign.
    + apply ignoredNamesOf_quiet in Hign.
      apply copyEntries_stops in Hloop; [|intros; eapply IH; eauto].
      match goal with
      | |- stops_at_first_failure ?err (?a :: ?b :: (?t ++ [?m]) ++ ?l) =>
        apply (stops_after_quiet err (a :: b :: t ++ [m]) l); [|exact Hloop]
      end.
      repeat constructor. apply Forall_app. split; [exact Hign|repeat constructor].
    + apply ignoredNamesOf_quiet in Hign.
      apply copyEntries_stops in Hloop; [|intros; eapply IH; eauto].
      match goal with
      | |- stops_at_first_failure ?err (?a :: ?b :: (?t ++ [?m]) ++ ?l) =>
        apply (stops_after_quiet err (a :: b :: t ++ [m]) l); [|exact Hloop]
      end.
      repeat constructor. apply Forall_app. split; [exact Hign|repeat constructor].
    + exists [EvStat src (Ok srcInfo)], (EvReadDir src (Err e)).
      repeat split. repeat constructor.
    + exists [], (EvStat src (Err e)). repeat split. constructor.
  - intros w e Hsrc. rewrite CopyTree_S, Hsrc. reflexivity.
  - intros w srcInfo e Hsrc Hdir. rewrite CopyTree_S, Hsrc, Hdir. reflexivity.
  - intros w srcInfo subs names w1 tr1 merr w2 Hsrc Hdir Hign Hmk pre.
    subst pre. split.
    + intros e ->. rewrite CopyTree_S, Hsrc, Hdir, Hign, Hmk. reflexivity.
    + intros e w3 tr -> Hloop.
      rewrite CopyTree_S, Hsrc, Hdir, Hign, Hmk. cbv zeta. rewrite Hloop.
      reflexivity.
  - intros names sub rest w subSrc subDst Hin. subst subSrc subDst.
    assert (Hign : isIgnored (Name sub) names = false).
    { rewrite isIgnored_named. unfold named.
      destruct (in_dec string_dec (Name sub) names); [contradiction|reflexivity]. }
    repeat apply conj.
    + intros e Hlstat. simpl. rewrite Hign.
      unfold bindT, call, read. rewrite Hlstat. reflexivity.
    + intros subSrcInfo p e w' tr Hlstat Hlink Hdir Hrec. simpl. rewrite Hign.
      unfold bindT at 1. unfold call, read. rewrite Hlstat, Hlink, Hdir.
      unfold bindT. rewrite Hrec. simpl. rewrite app_nil_r. reflexivity.
    + intros subSrcInfo p e w' Hlstat Hlink Hdir Hcopy. simpl. rewrite Hign.
      unfold bindT at 1. unfold call at 1. unfold read. rewrite Hlstat, Hlink, Hdir.
      unfold bindT, call. rewrite Hcopy. reflexivity.
  - intros. apply copyEntries_app_fail. assumption.
Qed.

Lemma CopyTree_ignore_calls (fuel : nat) (options : option (CopyTreeOptions W)) :
  forall src dst w r w' tr,
    CopyTree fuel src dst options w = Some (r, w', tr) ->
    ignore_calls tr =
      match ignoreOf options with
      | Some _ => visited tr
      | None => []
      end.
Proof.
  induction fuel as [|fuel IH]; intros src dst w r w' tr H; [discriminate|].
  assert (Hrest : forall src dst names subs w r w' tr,
            copyEntries (CopyTree fuel) (copyFunctionOf options) src dst options
              names subs w = Some (r, w', tr) ->
            ignore_calls tr =
              match ignoreOf options with
              | Some _ => visited tr
              | None => []
              end).
  { intros src' dst' names subs. apply copyEntries_calls.
    - destruct (ignoreOf options); reflexivity.
    - intros tr1 tr2 H1 H2. rewrite ignore_calls_app, H1, H2.
      destruct (ignoreOf options); [rewrite visited_app|]; reflexivity.
    - intros. destruct (ignoreOf options); reflexivity.
    - intros. destruct (ignoreOf options); reflexivity.
    - intros. eapply IH; eauto. }
  level H;
    try (apply Hrest in Hloop);
    try (rewrite ignoredNamesOf_run in Hign);
    destruct (ignoreOf options) as [ignore|]; try reflexivity;
    try (destruct (ignore _ _ _)); inversion Hign; subst; simpl;
    rewrite ?ignore_calls_app, ?visited_app; simpl; rewrite ?Hloop;
    reflexivity.
Qed.

Lemma CopyTree_copy_options (fuel : nat) (options : option (CopyTreeOptions W)) :
  forall src dst w r w' tr,
    CopyTree fuel src dst options w = Some (r, w', tr) ->
    Forall (eq None) (copy_options tr).
Proof.
  induction fuel as [|fuel IH]; intros src dst w r w' tr H; [discriminate|].
  assert (Hrest : forall src dst names subs w r w' tr,
            copyEntries (CopyTree fuel) (copyFunctionOf options) src dst options
              names subs w = Some (r, w', tr) ->
            Forall (eq None) (copy_options tr)).
  { intros src' dst' names subs. apply copyEntries_calls.
    - constructor.
    - intros tr1 tr2 H1 H2. rewrite copy_options_app. apply Forall_app; auto.
    - intros. constructor.
    - intros. repeat constructor.
    - intros. eapply IH; eauto. }
  assert (Hign' : forall src subs w names w1 tr1,
            ignoredNamesOf options src subs w = Some (names, w1, tr1) ->
            copy_options tr1 = []).
  { intros ? ? ? ? ? ?. rewrite ignoredNamesOf_run.
    destruct (ignoreOf options) as [ignore|].
    - destruct (ignore _ _ _). intros E. inversion E. reflexivity.
    - intros E. inversion E. reflexivity. }
  level H;
    try (apply Hrest in Hloop); try (apply Hign' in Hign); simpl;
    rewrite ?copy_options_app, ?Hign; simpl; try constructor; try exact Hloop.
Qed.

(** C4: in a run of [CopyTree] with an [Ignore] callback, the callback is
    invoked once for every directory listed, with the path and the
    entries of that directory, in the order of the listings; the names it
    answers, and no others, are the ignored names of that directory, and
    the directory is then processed exactly as if the entries so named
    had not been listed: they are neither stat'ed, nor copied, nor
    recursed into.  Without a callback nothing is invoked and the set of
    ignored names is empty. *)
Theorem CopyTree_ignore (fuel : nat) (src dst : string)
  (options : option (CopyTreeOptions W)) :
  (forall w r w' tr,
     CopyTree fuel src dst options w = Some (r, w', tr) ->
     ignore_calls tr =
       match ignoreOf options with
       | Some _ => visited tr
       | None => []
       end) /\
  (forall subs w,
     ignoredNamesOf options src subs w =
       match ignoreOf options with
       | Some ignore =>
         let (names, w') := ignore src subs w in
         Some (names, w', [EvIgnore src subs names])
       | None => Some ([], w, [])
       end) /\
  (forall w srcInfo subs names w1 tr1 w2,
     os_Stat src w = Ok srcInfo ->
     ioutil_ReadDir src w = Ok subs ->
     ignoredNamesOf options src subs w = Some (names, w1, tr1) ->
     os_MkdirAll dst (Mode srcInfo) w1 = (None, w2) ->
     CopyTree (S fuel) src dst options w =
       after (EvStat src (Ok srcInfo) :: EvReadDir src (Ok subs) :: tr1
                ++ [EvMkdirAll dst (Mode srcInfo) None])
         (finish dst
            (copyEntries (CopyTree fuel) (copyFunctionOf options) src dst options []
               (filter (fun sub => negb (named names sub)) subs) w2))).
Proof.
  split; [|split].
  - intros. eapply CopyTree_ignore_calls; eauto.
  - intros. apply ignoredNamesOf_run.
  - intros w srcInfo subs names w1 tr1 w2 Hsrc Hdir Hign Hmk.
    rewrite CopyTree_S, Hsrc, Hdir, Hign, Hmk, copyEntries_filter. reflexivity.
Qed.

(** C8: an entry that is not ignored is [Lstat]ed, and then: a symbolic
    link is passed over, with no call made for it and the world as it
    was; a directory is handed to [CopyTree] with the options of the
    parent call; anything else is handed to the copy function, which is
    [Copy2] unless the options name another, with [(subSrc, subDst,
    nil)].  The loop then goes on with the entries listed after it, unless
    the recursion or the copy function failed.  In a whole run, no
    invocation of the copy function is given options. *)
Theorem CopyTree_dispatch (fuel : nat) (src dst : string)
  (options : option (CopyTreeOptions W)) (names : list string) :
  let loop :=
    copyEntries (CopyTree fuel) (copyFunctionOf options) src dst options names in
  (forall sub rest w subSrcInfo,
     let subSrc := filepath_Join src (Name sub) in
     let subDst := filepath_Join dst (Name sub) in
     let next (r : string * option error) : T W (option error) :=
       match snd r with
       | Some err => retT (Some err)
       | None => loop rest
       end in
     ~ In (Name sub) names ->
     os_Lstat subSrc w = Ok subSrcInfo ->
     loop (sub :: rest) w =
       after [EvLstat subSrc (Ok subSrcInfo)]
         (if hasMode (Mode subSrcInfo) ModeSymlink then loop rest w
          else if IsDir subSrcInfo then
            bindT (CopyTree fuel subSrc subDst options) next w
          else
            bindT (call (EvCopyFunction subSrc subDst None)
                     (copyFunctionOf options subSrc subDst None)) next w)) /\
  copyFunctionOf options =
    match options with
    | Some o =>
      match CopyFunction o with
      | Some f => f
      | None => Copy2
      end
    | None => Copy2
    end /\
  (forall w r w' tr,
     CopyTree fuel src dst options w = Some (r, w', tr) ->
     Forall (eq None) (copy_options tr)).
Proof.
  intros loop. split; [|split].
  - intros sub rest w subSrcInfo subSrc subDst next Hin Hlstat.
    subst loop subSrc subDst next. simpl.
    rewrite isIgnored_named. unfold named.
    destruct (in_dec string_dec (Name sub) names); [contradiction|].
    unfold bindT at 1. unfold call at 1. unfold read at 1. rewrite Hlstat.
    destruct (hasMode (Mode subSrcInfo) ModeSymlink).
    + destruct (copyEntries _ _ _ _ _ _ rest w) as [[[? ?] ?]|]; reflexivity.
    + destruct (IsDir subSrcInfo); unfold bindT.
      * destruct (CopyTree fuel _ _ options w) as [[[[p [e|]] w1] tr1]|];
          try reflexivity.
      * destruct (call _ _ w) as [[[[p [e|]] w1] tr1]|]; try reflexivity.
  - destruct options as [[? ? [f|] ?]|]; reflexivity.
  - intros. eapply CopyTree_copy_options; eauto.
Qed.

(** ** Further behaviour of [CopyFile] and [Copy2] *)

Lemma CopyFile_success_path (src dst : string) (options : option CopyOptions)
  (w w' : W) (p : string) :
  CopyFile src dst options w = ((p, None), w') -> p = dst.
Proof.
  intros H. run. cases; congruence.
Qed.

(** X1: an error of [os.Stat] on [src] is returned as it is, and so is an
    error of [os.Stat] on [dst] unless it says that [dst] does not exist;
    in both cases nothing has been opened or created: the world is the
    one [CopyFile] was given. *)
Theorem CopyFile_stat_errors (src dst : string) (options : option CopyOptions)
  (w : W) :
  (forall e,
     os_Stat src w = Err e ->
     CopyFile src dst options w = (("", Some e), w)) /\
  (forall srcInfo e,
     os_Stat src w = Ok srcInfo ->
     hasMode (Mode srcInfo) ModeNamedPipe = false ->
     os_Stat dst w = Err e ->
     os_IsNotExist e = false ->
     CopyFile src dst options w = (("", Some e), w)).
Proof.
  split.
  - intros e Hsrc. run. rewrite Hsrc. reflexivity.
  - intros srcInfo e Hsrc Hpipe Hdst Hne. run.
    rewrite Hsrc, Hpipe, Hdst, Hne. reflexivity.
Qed.

(** The calls of the copy proper, in order. *)
Lemma CopyFile_calls (src dst : string) (options : option CopyOptions)
  (w : W) (srcInfo : FileInfo) :
  os_Stat src w = Ok srcInfo ->
  hasMode (Mode srcInfo) ModeNamedPipe = false ->
  dst_accepted srcInfo dst w ->
  negb (followSymlinksOf options) && hasMode (Mode srcInfo) ModeSymlink = false ->
  match os_Open src w with
  | (Err e, w1) => CopyFile src dst options w = (("", Some e), w1)
  | (Ok fsrc, w1) =>
    match os_Create dst w1 with
    | (Err e, w2) =>
      CopyFile src dst options w = (("", Some e), snd (File_Close fsrc w2))
    | (Ok fdst, w2) =>
      let '((size, cerr), w3) := io_Copy fdst fsrc w2 in
      let w4 :=
        match cerr with
        | Some _ => w3
        | None =>
          if size =? Size srcInfo then w3
          else snd (log_Printf "%s: %d/%d copied"
                      [LogString src; LogInt size; LogInt (Size srcInfo)] w3)
        end in
      snd (CopyFile src dst options w)
        = snd (File_Close fsrc (snd (File_Close fdst w4)))
    end
  end.
Proof.
  intros Hsrc Hpipe Hdst Hbranch.
  unfold dst_accepted in Hdst. unfold followSymlinksOf in Hbranch. run.
  rewrite Hsrc, Hpipe.
  destruct (os_Stat dst w) as [dstInfo|err];
    [destruct Hdst as [Hs Hp]; rewrite Hs, Hp|rewrite Hdst; simpl];
    rewrite Hbranch;
    (destruct (os_Open src w) as [[fsrc|e] w1]; [|reflexivity];
     destruct (os_Create dst w1) as [[fdst|e] w2];
     [|destruct (File_Close fsrc w2); reflexivity];
     destruct (io_Copy fdst fsrc w2) as [[size [e|]] w3];
     [|destruct (size =? Size srcInfo); simpl;
       [|destruct (log_Printf _ _ w3) as [? w3']; simpl]];
     repeat match goal with
            | |- context [File_Close ?f ?x] =>
              let o := fresh "o" in let y := fresh "w" in
              destruct (File_Close f x) as [o y]; simpl
            end;
     reflexivity).
Qed.


(** X2: once the checks are passed and [src] is not to be recreated as a
    link, the world [CopyFile] leaves is that of its calls in this order:
    [os.Open]; if that fails, nothing more.  Otherwise [os.Create]; if
    that fails, [src] is closed and the error returned.  Otherwise
    [io.Copy], then a log line when the copy reported no error but a
    wrong size, then the close of [dst], then the close of [src]: both
    files are closed on every way out, the destination first. *)
Theorem CopyFile_closes_files (src dst : string) (options : option CopyOptions)
  (w : W) (srcInfo : FileInfo) :
  os_Stat src w = Ok srcInfo ->
  hasMode (Mode srcInfo) ModeNamedPipe = false ->
  dst_accepted srcInfo dst w ->
  negb (followSymlinksOf options) && hasMode (Mode srcInfo) ModeSymlink = false ->
  match os_Open src w with
  | (Err e, w1) => CopyFile src dst options w = (("", Some e), w1)
  | (Ok fsrc, w1) =>
    match os_Create dst w1 with
    | (Err e, w2) =>
      CopyFile src dst options w = (("", Some e), snd (File_Close fsrc w2))
    | (Ok fdst, w2) =>
      let '((size, cerr), w3) := io_Copy fdst fsrc w2 in
      let w4 :=
        match cerr with
        | Some _ => w3
        | None =>
          if size =? Size srcInfo then w3
          else snd (log_Printf "%s: %d/%d copied"
                      [LogString src; LogInt size; LogInt (Size srcInfo)] w3)
        end in
      snd (CopyFile src dst options w)
        = snd (File_Close fsrc (snd (File_Close fdst w4)))
    end
  end.
Proof.
  apply CopyFile_calls.
Qed.

Lemma Copy2_at_destination (src dst : string) (options : option CopyOptions)
  (w : W) :
  Copy2 src dst options w =
    CopyFile src (destinationOf src dst w)
      (Some {| FollowSymlinks := followSymlinksOf options |}) w.
Proof.
  unfold Copy2, destinationOf, followSymlinksOf, CopyStat, bind, read, ret.
  match goal with
  | |- context [CopyFile src ?d ?o w] =>
    destruct (CopyFile src d o w) as [[p [e|]] w1] eqn:H
  end.
  - rewrite (CopyFile_error_path _ _ _ _ _ _ _ H). reflexivity.
  - rewrite (CopyFile_success_path _ _ _ _ _ _ H). reflexivity.
Qed.

(** X3: [Copy2] is [CopyFile]: on the destination it settles on ([dst],
    or [dst/basename(src)] when [dst] is an existing directory) and with
    the link policy of its options it returns what [CopyFile] returns and
    leaves the world [CopyFile] leaves; the call of [CopyStat] adds
    nothing. *)
Theorem Copy2_is_CopyFile (src dst : string) (options : option CopyOptions)
  (w : W) :
  Copy2 src dst options w =
    CopyFile src
      match os_Stat dst w with
      | Ok dstInfo =>
        if IsDir dstInfo then filepath_Join dst (filepath_Base src) else dst
      | Err _ => dst
      end
      (Some {| FollowSymlinks :=
                 match options with
                 | Some o => FollowSymlinks o
                 | None => true
                 end |}) w.
Proof.
  apply Copy2_at_destination.
Qed.

Lemma CopyTree_success_path (fuel : nat) (src dst : string)
  (options : option (CopyTreeOptions W)) (w w' : W) (p : string)
  (tr : list Event) :
  CopyTree fuel src dst options w = Some ((p, None), w', tr) -> p = dst.
Proof.
  destruct fuel as [|fuel]; intros H; [discriminate|].
  level H; reflexivity.
Qed.

(** X4: a nil error comes with the destination path: [CopyFile] and
    [CopyTree] return [dst] itself, and [Copy2] returns the path it
    copied to, which is [dst/basename(src)] exactly when [dst] was an
    existing directory. *)
Theorem success_path (src dst : string) (p : string) (w w' : W) :
  (forall options,
     CopyFile src dst options w = ((p, None), w') -> p = dst) /\
  (forall options,
     Copy2 src dst options w = ((p, None), w') ->
     p = match os_Stat dst w with
         | Ok dstInfo =>
           if IsDir dstInfo then filepath_Join dst (filepath_Base src) else dst
         | Err _ => dst
         end) /\
  (forall fuel options tr,
     CopyTree fuel src dst options w = Some ((p, None), w', tr) -> p = dst).
Proof.
  repeat split; intros.
  - eapply CopyFile_success_path; eauto.
  - rewrite Copy2_at_destination in H.
    apply CopyFile_success_path in H. exact H.
  - eapply CopyTree_success_path; eauto.
Qed.

(** ** Further behaviour of [CopyTree] *)






Lemma prepared_more (made made' : list string) (tr : list Event) :
  incl made made' -> prepared made tr -> prepared made' tr.
Proof.
  revert made made'. induction tr as [|ev tr IH]; intros made made' Hincl; simpl;
    [auto|].
  destruct ev as [? ?|? ?|? ? ?|d ? [e|]|? ?|? d ? ?]; eauto.
  - apply IH. intros x [->|Hx]; [left; reflexivity|right; auto].
  - intros [(dir & name & Hin & ->) H]. split; eauto.
Qed.




(** ** The checks and the copy proper, taken apart *)

Lemma CopyFile_stopped (src dst : string) (options : option CopyOptions) (w : W) :
  passes_checks src dst w = None ->
  snd (CopyFile src dst options w) = w.
Proof.
  unfold passes_checks, CopyFile, bind, read, ret.
  destruct (os_Stat src w) as [srcInfo|e]; [|reflexivity].
  destruct (hasMode (Mode srcInfo) ModeNamedPipe); [reflexivity|].
  destruct (os_Stat dst w) as [dstInfo|e].
  - destruct (os_SameFile srcInfo dstInfo); [reflexivity|].
    destruct (hasMode (Mode dstInfo) ModeNamedPipe); [reflexivity|discriminate].
  - destruct (os_IsNotExist e); [discriminate|reflexivity].
Qed.

Lemma passes_checks_Some (src dst : string) (w : W) (srcInfo : FileInfo) :
  passes_checks src dst w = Some srcInfo ->
  os_Stat src w = Ok srcInfo /\
  hasMode (Mode srcInfo) ModeNamedPipe = false /\
  dst_accepted srcInfo dst w.
Proof.
  unfold passes_checks, dst_accepted.
  destruct (os_Stat src w) as [si|e]; [|discriminate].
  destruct (hasMode (Mode si) ModeNamedPipe) eqn:Hp; [discriminate|].
  destruct (os_Stat dst w) as [dstInfo|e].
  - destruct (os_SameFile si dstInfo) eqn:Hs; [discriminate|].
    destruct (hasMode (Mode dstInfo) ModeNamedPipe) eqn:Hd; [discriminate|].
    intros H. inversion H; subst. rewrite Hs. auto.
  - destruct (os_IsNotExist e) eqn:Hn; [|discriminate].
    intros H. inversion H; subst. auto.
Qed.

Lemma CopyFile_stopped_error (src dst : string) (options : option CopyOptions)
  (w : W) :
  passes_checks src dst w = None ->
  snd (fst (CopyFile src dst options w)) <> None.
Proof.
  unfold passes_checks, CopyFile, bind, read, ret.
  destruct (os_Stat src w) as [srcInfo|e]; [|discriminate].
  destruct (hasMode (Mode srcInfo) ModeNamedPipe); [discriminate|].
  destruct (os_Stat dst w) as [dstInfo|e].
  - destruct (os_SameFile srcInfo dstInfo); [discriminate|].
    destruct (hasMode (Mode dstInfo) ModeNamedPipe); discriminate.
  - destruct (os_IsNotExist e); discriminate.
Qed.

Lemma CopyFile_transfer (src dst : string) (options : option CopyOptions)
  (w w1 w2 w3 : W) (srcInfo : FileInfo) (fsrc fdst : File) (size : Z)
  (cerr : option error) :
  os_Stat src w = Ok srcInfo ->
  hasMode (Mode srcInfo) ModeNamedPipe = false ->
  dst_accepted srcInfo dst w ->
  negb (followSymlinksOf options) && hasMode (Mode srcInfo) ModeSymlink = false ->
  os_Open src w = (Ok fsrc, w1) ->
  os_Create dst w1 = (Ok fdst, w2) ->
  io_Copy fdst fsrc w2 = ((size, cerr), w3) ->
  let complete := size =? Size srcInfo in
  let w4 :=
    match cerr with
    | Some _ => w3
    | None =>
      if complete then w3
      else snd (log_Printf "%s: %d/%d copied"
                  [LogString src; LogInt size; LogInt (Size srcInfo)] w3)
    end in
  CopyFile src dst options w =
    (match cerr with
     | Some e => ("", Some e)
     | None => if complete then (dst, None)
               else ("", Some (CopyNotCompleteError src dst))
     end,
     snd (File_Close fsrc (snd (File_Close fdst w4)))).
Proof.
  intros Hsrc Hpipe Hdst Hbranch Hopen Hcreate Hcopy complete w4.
  subst complete w4.
  unfold dst_accepted in Hdst. unfold followSymlinksOf in Hbranch.
  unfold CopyFile, defer, bind, read, ret.
  rewrite Hsrc, Hpipe.
  destruct (os_Stat dst w) as [dstInfo|err];
    [destruct Hdst as [Hs Hp]; rewrite Hs, Hp|rewrite Hdst; simpl];
    rewrite Hbranch, Hopen, Hcreate, Hcopy;
    (destruct cerr as [e|];
     [|destruct (size =? Size srcInfo); simpl;
       [|destruct (log_Printf _ _ w3) as [? w3']; simpl]];
     repeat match goal with
            | |- context [File_Close ?f ?x] =>
              let o := fresh "o" in let y := fresh "w" in
              destruct (File_Close f x) as [o y]; simpl
            end;
     reflexivity).
Qed.

End Facts.

(** ** The simulated file system *)

Lemma resolve_not_link (hops : nat) (op p : string) (w : Sim.World)
  (q : string) (i : Z) (nd : Sim.Inode) :
  Sim.resolve hops op p w = Ok (q, i, nd) ->
  forall target, Sim.kind nd <> Sim.Symlink target.
Proof.
  revert p. induction hops as [|hops IH]; intros p; simpl.
  - destruct (Sim.inode_at p w) as [[j nd']|]; [|discriminate].
    destruct (Sim.kind nd') eqn:K; try discriminate;
      intros H; inversion H; subst; congruence.
  - destruct (Sim.inode_at p w) as [[j nd']|]; [|discriminate].
    destruct (Sim.kind nd') eqn:K;
      try (intros H; inversion H; subst; congruence).
    destruct (Sim.resolve hops op target w) as [[[q' i'] nd'']|e] eqn:R.
    + intros H. inversion H; subst. eapply IH; eauto.
    + destruct e; discriminate.
Qed.

(** [os.Stat] follows links: what it reports is never a link. *)
Lemma Stat_never_link (p : string) (w : Sim.World) (fi : FileInfo) :
  Sim.Stat p w = Ok fi -> hasMode (Mode fi) ModeSymlink = false.
Proof.
  unfold Sim.Stat.
  destruct (Sim.resolve Sim.max_hops "stat" p w) as [[[q i] nd]|e] eqn:R;
    [|discriminate].
  intros H. inversion H; subst. clear H.
  pose proof (resolve_not_link _ _ _ _ _ _ _ R) as K.
  unfold hasMode, Sim.info. simpl.
  rewrite Z.land_lor_distr_l, <- Z.land_assoc.
  change (Z.land 4095 ModeSymlink) with 0. rewrite Z.land_0_r, Z.lor_0_r.
  destruct (Sim.kind nd) eqn:E; try reflexivity.
  exfalso. apply (K target). reflexivity.
Qed.

(** With an [os.Stat] that never reports a link, line 47 always takes the
    [else]: the [FollowSymlinks] option changes nothing. *)
Lemma CopyFile_policy_without_effect {W : Type} {os : OS W} :
  (forall p w fi, os_Stat p w = Ok fi -> hasMode (Mode fi) ModeSymlink = false) ->
  forall src dst options w,
    CopyFile src dst options w = CopyFile src dst None w.
Proof.
  intros Hstat src dst options w. unfold CopyFile, bind, read.
  destruct (os_Stat src w) as [srcInfo|e] eqn:Hsrc; [|reflexivity].
  rewrite (Hstat _ _ _ Hsrc), !andb_false_r. reflexivity.
Qed.

(** On the simulated file system, then, [CopyFile] never reads or creates
    a link. *)
Lemma Sim_CopyFile_policy_without_effect (src dst : string)
  (options : option CopyOptions) (w : Sim.World) :
  CopyFile src dst options w = CopyFile src dst None w.
Proof.
  apply (CopyFile_policy_without_effect (os := Sim.os)).
  exact Stat_never_link.
Qed.

(** C2, on the code: [/l] is a symbolic link to a regular file holding
    [hello]; asked not to follow links, [CopyFile] succeeds, and what it
    left at the destination is not a link but a new regular file with the
    bytes of the file the link points to. *)
Theorem CopyFile_link_copied_as_file :
  let run := CopyFile "/l" "/x" (Some {| FollowSymlinks := false |}) demo in
  Sim.Readlink "/l" demo = Ok "/d/a.txt" /\
  fst run = ("/x", None) /\
  Sim.Readlink "/x" (snd run) = Err (PathError "readlink" "/x" EINVAL) /\
  Sim.inode_at "/x" (snd run)
    = Some (9, {| Sim.kind := Sim.Regular "hello"; Sim.perm := 420 |}).
Proof.
  vm_compute. repeat split.
Qed.

(** C9: whatever the options, [RmTree] is the one call of [os.Remove] on
    [path]; on the simulated file system that call fails with
    [ENOTEMPTY], and removes nothing, on every directory that has an
    entry. *)
Theorem RmTree_single_remove :
  (forall (W : Type) (os : OS W) (path : string)
          (options : option (RmTreeOptions W)) (w : W),
     RmTree path options w = os_Remove path w) /\
  (forall (path : string) (options : option (RmTreeOptions Sim.World))
          (w : Sim.World) (i : Z) (nd : Sim.Inode),
     Sim.inode_at path w = Some (i, nd) ->
     Sim.kind nd = Sim.Directory ->
     Sim.has_entries path w = true ->
     RmTree path options w = (Some (PathError "remove" path ENOTEMPTY), w)).
Proof.
  split.
  - reflexivity.
  - intros path options w i nd Hat Hkind Hentries.
    unfold RmTree. simpl. unfold Sim.Remove.
    rewrite Hat, Hkind, Hentries. reflexivity.
Qed.

(** ** Concrete runs *)

Lemma RmTree_single_remove_witness :
  RmTree "/d" None demo = (Some (PathError "remove" "/d" ENOTEMPTY), demo).
Proof.
  apply (proj2 RmTree_single_remove "/d" None demo 2
           {| Sim.kind := Sim.Directory; Sim.perm := 493 |});
    reflexivity.
Defined.

(** C1 as stated fails: [/d/p] and [/q] are two names of one named pipe,
    and [CopyFile] fails with [SpecialFileError], not [SameFileError]. *)
Lemma CopyFile_same_pipe :
  os_Stat "/d/p" linked = Ok pipe_p /\
  os_Stat "/q" linked
    = Ok {| Name := "q"; Size := 0; Mode := 33554852; Dev := 1; Ino := 7 |} /\
  os_SameFile pipe_p
    {| Name := "q"; Size := 0; Mode := 33554852; Dev := 1; Ino := 7 |} = true /\
  fst (CopyFile "/d/p" "/q" None linked) = ("", Some (SpecialFileError "/d/p")) /\
  fst (CopyFile "/d/p" "/q" None linked) <> ("", Some (SameFileError "/d/p" "/q")).
Proof.
  vm_compute. repeat split. discriminate.
Qed.

Lemma CopyFile_same_file_witness :
  CopyFile "/d/a.txt" "/h" None linked
    = (("", Some (SameFileError "/d/a.txt" "/h")), linked).
Proof.
  apply (CopyFile_same_file "/d/a.txt" "/h" None linked a_txt
           {| Name := "h"; Size := 5; Mode := 420; Dev := 1; Ino := 3 |});
    reflexivity.
Defined.

(** C3 as stated fails: the disk fills up after two of the five bytes,
    the copy call reports it, and [CopyFile] returns that error, not
    [CopyNotCompleteError]. *)
Lemma CopyFile_disk_full :
  regular_copy "/a.txt" "/b.txt" None nearly_full
    {| Name := "a.txt"; Size := 5; Mode := 420; Dev := 1; Ino := 2 |}
    2 (Some (PathError "write" "/b.txt" ENOSPC)) /\
  fst (CopyFile "/a.txt" "/b.txt" None nearly_full)
    = ("", Some (PathError "write" "/b.txt" ENOSPC)) /\
  fst (CopyFile "/a.txt" "/b.txt" None nearly_full)
    <> ("", Some (CopyNotCompleteError "/a.txt" "/b.txt")).
Proof.
  split; [|split].
  - unfold regular_copy. repeat split.
    eexists _, _, _, _, _. repeat split; vm_compute; reflexivity.
  - vm_compute. reflexivity.
  - vm_compute. discriminate.
Qed.

Lemma CopyFile_copy_not_complete_witness :
  fst (CopyFile "/a.txt" "/b.txt" None interrupted)
    = ("", Some (CopyNotCompleteError "/a.txt" "/b.txt")).
Proof.
  refine (proj1 (proj2 (CopyFile_copy_not_complete "/a.txt" "/b.txt" None interrupted
            {| Name := "a.txt"; Size := 5; Mode := 420; Dev := 1; Ino := 2 |}
            2 None _)) eq_refl _).
  - unfold regular_copy. repeat split.
    eexists _, _, _, _, _. repeat split; vm_compute; reflexivity.
  - discriminate.
Defined.

Lemma Copy2_into_directory_witness :
  fst (Copy2 "/d/a.txt" "/d/sub" None demo) = ("/d/sub/a.txt", None).
Proof.
  rewrite (Copy2_into_directory "/d/a.txt" "/d/sub" None demo dir_sub);
    reflexivity.
Defined.

(** C7 as stated fails: [/d/p] exists and is a named pipe, [/missing]
    does not exist, and [CopyFile] fails with the error of [os.Stat], not
    with [SpecialFileError]. *)
Lemma CopyFile_missing_to_pipe :
  os_Stat "/d/p" demo = Ok pipe_p /\
  hasMode (Mode pipe_p) ModeNamedPipe = true /\
  fst (CopyFile "/missing" "/d/p" None demo)
    = ("", Some (PathError "stat" "/missing" ENOENT)).
Proof.
  vm_compute. repeat split.
Qed.

Lemma CopyFile_named_pipe_witness :
  CopyFile "/d/p" "/x" None demo = (("", Some (SpecialFileError "/d/p")), demo) /\
  exists file,
    CopyFile "/d/a.txt" "/d/p" None demo = (("", Some (SpecialFileError file)), demo).
Proof.
  split.
  - apply (proj1 (CopyFile_named_pipe (os := Sim.os) "/d/p" "/x" None demo pipe_p
                    ltac:(reflexivity))).
    reflexivity.
  - apply (proj2 (CopyFile_named_pipe (os := Sim.os) "/d/a.txt" "/d/p" None demo a_txt
                    ltac:(reflexivity))
             pipe_p); [reflexivity|reflexivity|discriminate].
Defined.

Lemma error_path_empty_witness :
  fst (fst (CopyFile "/d/p" "/x" None demo)) = "" /\
  fst (fst (Copy2 "/d/p" "/x" None demo)) = "" /\
  exists w' tr,
    CopyTree 3 "/d" "/e" no_options demo
      = Some (("", Some (SpecialFileError "/d/p")), w', tr).
Proof.
  split; [|split].
  - destruct (CopyFile "/d/p" "/x" None demo) as [[p [e|]] w'] eqn:H.
    + apply (proj1 (error_path_empty "/d/p" "/x" p e demo w') None H).
    + vm_compute in H. discriminate H.
  - destruct (Copy2 "/d/p" "/x" None demo) as [[p [e|]] w'] eqn:H.
    + apply (proj1 (proj2 (error_path_empty "/d/p" "/x" p e demo w')) None H).
    + vm_compute in H. discriminate H.
  - destruct (CopyTree 3 "/d" "/e" no_options demo) as [[[[p [e|]] w'] tr]|] eqn:H.
    + rewrite (proj2 (proj2 (error_path_empty "/d" "/e" p e demo w'))
                 3%nat no_options tr H).
      vm_compute in H. inversion H. eexists _, _. reflexivity.
    + vm_compute in H. discriminate H.
    + vm_compute in H. discriminate H.
Defined.

Lemma CopyTree_fails_fast_witness :
  exists w' tr,
    CopyTree 3 "/d" "/e" no_options demo
      = Some (("", Some (SpecialFileError "/d/p")), w', tr) /\
    stops_at_first_failure (Some (SpecialFileError "/d/p")) tr /\
    ~ In (EvLstat "/d/sub" (Ok dir_sub)) tr.
Proof.
  destruct (CopyTree 3 "/d" "/e" no_options demo) as [[[[p err] w'] tr]|] eqn:H.
  - pose proof (proj1 (CopyTree_fails_fast (os := Sim.os) 3 "/d" "/e" no_options)
                  demo p err w' tr H) as Hstop.
    vm_compute in H. inversion H; subst. eexists _, _.
    split; [reflexivity|]. split; [exact Hstop|].
    simpl. intros Hin. repeat (destruct Hin as [Hin|Hin]; [discriminate Hin|]).
    exact Hin.
  - vm_compute in H. discriminate H.
Defined.

Lemma CopyTree_ignore_witness :
  exists w' tr,
    CopyTree 3 "/d" "/e" ignore_p demo = Some (("/e", None), w', tr) /\
    ignore_calls tr = visited tr /\
    length (ignore_calls tr) = 2%nat /\
    Sim.inode_at "/e/p" w' = None /\
    Sim.content_of "/e/sub/c.txt" w' = Some "ccc".
Proof.
  destruct (CopyTree 3 "/d" "/e" ignore_p demo) as [[[r w'] tr]|] eqn:H.
  - pose proof (proj1 (CopyTree_ignore 3 "/d" "/e" ignore_p) demo r w' tr H)
      as Hcalls.
    vm_compute in H. inversion H; subst. eexists _, _.
    split; [reflexivity|]. split; [exact Hcalls|].
    vm_compute. repeat split.
  - vm_compute in H. discriminate H.
Defined.

Lemma CopyTree_dispatch_witness :
  ~ In (Name a_txt) [] /\
  os_Lstat "/d/a.txt" demo = Ok a_txt /\
  copyEntries (CopyTree 2) (copyFunctionOf no_options) "/d" "/e" no_options []
    [a_txt; dir_sub] demo =
  after [EvLstat "/d/a.txt" (Ok a_txt)]
    (bindT (call (EvCopyFunction "/d/a.txt" "/e/a.txt" None)
              (Copy2 "/d/a.txt" "/e/a.txt" None))
       (fun r =>
          match snd r with
          | Some err => retT (Some err)
          | None =>
            copyEntries (CopyTree 2) (copyFunctionOf no_options) "/d" "/e"
              no_options [] [dir_sub]
          end) demo).
Proof.
  assert (Hin : ~ In (Name a_txt) []) by (intros []).
  assert (Hlstat : os_Lstat "/d/a.txt" demo = Ok a_txt) by reflexivity.
  split; [exact Hin|]. split; [exact Hlstat|].
  exact (proj1 (CopyTree_dispatch 2 "/d" "/e" no_options [])
           a_txt [dir_sub] demo a_txt Hin Hlstat).
Defined.

(** ** The messages of [errors.go] *)

Lemma list_ascii_of_append (s t : string) :
  list_ascii_of_string (s ++ t)
    = (list_ascii_of_string s ++ list_ascii_of_string t)%list.
Proof.
  induction s as [|c s IH]; simpl; [reflexivity|]. rewrite IH. reflexivity.
Qed.

Lemma backwards_append (s t : string) :
  backwards (s ++ t) = (backwards t ++ backwards s)%list.
Proof.
  unfold backwards. rewrite list_ascii_of_append. apply rev_app_distr.
Qed.

Lemma backwards_inj (s t : string) : backwards s = backwards t -> s = t.
Proof.
  unfold backwards. intros H.
  apply (f_equal (@rev ascii)) in H. rewrite !rev_involutive in H.
  apply (f_equal string_of_list_ascii) in H.
  rewrite !string_of_list_ascii_of_string in H. exact H.
Qed.

(** X7: the messages tell the three error types of [errors.go] apart: no
    message of one type is a message of another, whatever the paths; and
    the message of a [SpecialFileError] determines its file. *)
Theorem Error_messages_apart (a b c d f g : string) :
  Error (SameFileError a b) <> Error (SpecialFileError f) /\
  Error (SameFileError a b) <> Error (CopyNotCompleteError c d) /\
  Error (SpecialFileError f) <> Error (CopyNotCompleteError c d) /\
  (Error (SpecialFileError f) = Error (SpecialFileError g) -> f = g).
Proof.
  repeat split.
  1-3: intros H; apply (f_equal backwards) in H;
       cbv beta iota delta [Error] in H; rewrite !backwards_append in H;
       repeat match type of H with
              | context [backwards (String ?c ?s)] =>
                let v := eval vm_compute in (backwards (String c s)) in
                change (backwards (String c s)) with v in H
              end;
       simpl in H; discriminate H.
  intros H. cbv beta iota delta [Error] in H.
  apply (f_equal backwards) in H. rewrite !backwards_append in H.
  apply app_inv_tail in H. apply app_inv_head in H.
  apply backwards_inj. exact H.
Qed.

(** ** [CopyFile] on the simulated file system *)


Lemma lookup_name_app (p : string) (ns ns' : list (string * Z)) :
  Sim.lookup_name p (ns ++ ns') =
    match Sim.lookup_name p ns with
    | Some i => Some i
    | None => Sim.lookup_name p ns'
    end.
Proof.
  induction ns as [|[q i] ns IH]; simpl; [reflexivity|].
  destruct (String.eqb p q); [reflexivity|exact IH].
Qed.

Lemma lookup_Z_app {A : Type} (k : Z) (l l' : list (Z * A)) :
  Sim.lookup_Z k (l ++ l') =
    match Sim.lookup_Z k l with
    | Some a => Some a
    | None => Sim.lookup_Z k l'
    end.
Proof.
  induction l as [|[j a] l IH]; simpl; [reflexivity|].
  destruct (k =? j); [reflexivity|exact IH].
Qed.

Lemma lookup_Z_update {A : Type} (k j : Z) (a : A) (l : list (Z * A)) :
  Sim.lookup_Z k (Sim.update_Z j a l) =
    if k =? j then Some a else Sim.lookup_Z k l.
Proof.
  induction l as [|[i b] l IH]; simpl.
  - destruct (k =? j); reflexivity.
  - destruct (Z.eqb_spec j i) as [->|Hji]; simpl.
    + destruct (k =? i); reflexivity.
    + rewrite IH. destruct (Z.eqb_spec k i) as [->|Hki].
      * destruct (Z.eqb_spec i j); [congruence|reflexivity].
      * reflexivity.
Qed.

Lemma update_Z_app_fresh {A : Type} (k : Z) (a b : A) (l : list (Z * A)) :
  Sim.lookup_Z k l = None ->
  Sim.update_Z k a (l ++ [(k, b)]) = (l ++ [(k, a)])%list.
Proof.
  induction l as [|[j x] l IH]; simpl.
  - intros _. rewrite Z.eqb_refl. reflexivity.
  - destruct (k =? j); [discriminate|]. intros H. rewrite (IH H). reflexivity.
Qed.

Lemma remove_Z_fresh {A : Type} (k : Z) (l : list (Z * A)) :
  Sim.lookup_Z k l = None -> Sim.remove_Z k l = l.
Proof.
  unfold Sim.remove_Z. induction l as [|[j x] l IH]; simpl; [reflexivity|].
  rewrite (Z.eqb_sym j k). destruct (k =? j); [discriminate|].
  intros H. simpl. rewrite (IH H). reflexivity.
Qed.

Lemma remove_Z_last {A : Type} (k : Z) (x : A) (l : list (Z * A)) :
  Sim.lookup_Z k l = None -> Sim.remove_Z k (l ++ [(k, x)]) = l.
Proof.
  intros H. unfold Sim.remove_Z. rewrite filter_app. simpl.
  rewrite Z.eqb_refl. simpl. rewrite app_nil_r. apply remove_Z_fresh. exact H.
Qed.

(** [Sim.resolve] reads the names and the inodes only. *)
Lemma resolve_same_fs (w w' : Sim.World) :
  Sim.names w' = Sim.names w -> Sim.inodes w' = Sim.inodes w ->
  forall hops op p, Sim.resolve hops op p w' = Sim.resolve hops op p w.
Proof.
  intros Hn Hi. induction hops as [|hops IH]; intros op p; simpl;
    unfold Sim.inode_at; rewrite Hn, Hi; [reflexivity|].
  destruct (Sim.lookup_name p (Sim.names w)) as [i|]; [|reflexivity].
  destruct (Sim.lookup_Z i (Sim.inodes w)) as [nd|]; [|reflexivity].
  destruct (Sim.kind nd); try reflexivity. rewrite IH. reflexivity.
Qed.

Lemma resolve_op (w : Sim.World) (op op' : string) :
  forall hops p r,
    Sim.resolve hops op p w = Ok r -> Sim.resolve hops op' p w = Ok r.
Proof.
  induction hops as [|hops IH]; intros p r; simpl.
  - destruct (Sim.inode_at p w) as [[i nd]|]; [|discriminate].
    destruct (Sim.kind nd); auto; discriminate.
  - destruct (Sim.inode_at p w) as [[i nd]|]; [|discriminate].
    destruct (Sim.kind nd); auto.
    destruct (Sim.resolve hops op target w) as [r'|e] eqn:R.
    + intros H. inversion H; subst. rewrite (IH _ _ R). reflexivity.
    + destruct e; discriminate.
Qed.

Lemma resolve_missing (w : Sim.World) (hops : nat) (op p : string) :
  Sim.inode_at p w = None ->
  Sim.resolve hops op p w = Err (PathError op p ENOENT).
Proof.
  intros H. destruct hops; simpl; rewrite H; reflexivity.
Qed.

Lemma resolve_inode (w : Sim.World) (op : string) :
  forall hops p q i nd,
    Sim.resolve hops op p w = Ok (q, i, nd) ->
    Sim.inode_at q w = Some (i, nd).
Proof.
  induction hops as [|hops IH]; intros p q i nd; simpl.
  - destruct (Sim.inode_at p w) as [[j nd']|] eqn:E; [|discriminate].
    destruct (Sim.kind nd'); try discriminate; intros H; inversion H; subst; exact E.
  - destruct (Sim.inode_at p w) as [[j nd']|] eqn:E; [|discriminate].
    destruct (Sim.kind nd'); try (intros H; inversion H; subst; exact E).
    destruct (Sim.resolve hops op target w) as [r'|e] eqn:R.
    + intros H. inversion H; subst. eapply IH; eauto.
    + destruct e; discriminate.
Qed.

Lemma regular_mode (p : string) (i : Z) (nd : Sim.Inode) (c : string) :
  Sim.kind nd = Sim.Regular c ->
  hasMode (Mode (Sim.info p i nd)) ModeNamedPipe = false /\
  hasMode (Mode (Sim.info p i nd)) ModeSymlink = false /\
  Size (Sim.info p i nd) = Z.of_nat (String.length c).
Proof.
  intros K. unfold hasMode, Sim.info. simpl. rewrite K. simpl.
  rewrite <- !Z.land_assoc.
  change (Z.land 4095 ModeNamedPipe) with 0.
  change (Z.land 4095 ModeSymlink) with 0.
  rewrite Z.land_0_r. repeat split.
Qed.

Lemma substring_all (s : string) : substring 0 (String.length s) s = s.
Proof.
  induction s as [|c s IH]; simpl; [reflexivity|]. rewrite IH. reflexivity.
Qed.




Lemma CopyFile_fresh (src dst : string) (options : option CopyOptions)
  (w : Sim.World) (c : string) :
  Sim.content_of src w = Some c ->
  Sim.lookup_name dst (Sim.names w) = None ->
  Sim.parent_is_dir dst w = true ->
  fresh_numbers w ->
  let n := Z.of_nat (String.length c) in
  let '(written, failed, free) := written_by w n in
  let complete := written =? n in
  CopyFile src dst options w =
    ((match failed with
      | Some e => ("", Some (PathError "write" dst e))
      | None => if complete then (dst, None)
                else ("", Some (CopyNotCompleteError src dst))
      end),
     {| Sim.inodes :=
          Sim.inodes w ++
          [(Sim.next_ino w,
            {| Sim.kind := Sim.Regular (substring 0 (Z.to_nat written) c);
               Sim.perm := 420 |})];
        Sim.names := Sim.names w ++ [(dst, Sim.next_ino w)];
        Sim.open_files := Sim.open_files w;
        Sim.next_ino := Sim.next_ino w + 1;
        Sim.next_fd := Sim.next_fd w + 1 + 1;
        Sim.disk_free := free;
        Sim.short_write := Sim.short_write w;
        Sim.log :=
          match failed with
          | Some _ => Sim.log w
          | None =>
            if complete then Sim.log w
            else Sim.log w ++
                 [("%s: %d/%d copied",
                   [LogString src; LogInt written; LogInt n])]
          end |}).
Proof.
  intros Hsrc Hdst Hparent (Hino & Hfd & Hfd').
  unfold Sim.content_of in Hsrc.
  destruct (Sim.resolve Sim.max_hops "open" src w) as [[[q i] nd]|e] eqn:Ropen;
    [|discriminate].
  destruct (Sim.kind nd) as [c'| | |] eqn:K; try discriminate.
  inversion Hsrc; subst c'. clear Hsrc.
  pose proof (resolve_op w "open" "stat" _ _ _ Ropen) as Rstat.
  pose proof (resolve_inode w "open" _ _ _ _ _ Ropen) as Hat.
  destruct (regular_mode src i nd c K) as (Mp & Ml & Msz).
  assert (Hnone : Sim.inode_at dst w = None).
  { unfold Sim.inode_at. rewrite Hdst. reflexivity. }
  (* the calls, one by one *)
  assert (Sstat : os_Stat src w = Ok (Sim.info src i nd)).
  { simpl. unfold Sim.Stat. rewrite Rstat. reflexivity. }
  assert (Sdst : dst_accepted (Sim.info src i nd) dst w).
  { unfold dst_accepted. simpl. unfold Sim.Stat.
    rewrite (resolve_missing _ _ _ _ Hnone). reflexivity. }
  set (w1 := Sim.with_open_files w
               (Sim.open_files w ++ [(Sim.next_fd w, (src, i))])
               (Sim.next_fd w + 1)).
  assert (Sopen : os_Open src w = (Ok (Sim.next_fd w), w1)).
  { simpl. unfold Sim.Open. rewrite Ropen. reflexivity. }
  set (w2 := Sim.with_open_files
               (Sim.add_inode dst {| Sim.kind := Sim.Regular ""; Sim.perm := 420 |} w1)
               ((Sim.open_files w ++ [(Sim.next_fd w, (src, i))])
                  ++ [(Sim.next_fd w + 1, (dst, Sim.next_ino w))])
               (Sim.next_fd w + 1 + 1)).
  assert (Screate : os_Create dst w1 = (Ok (Sim.next_fd w + 1), w2)).
  { simpl. unfold Sim.Create.
    change (Sim.inode_at dst w1) with (Sim.inode_at dst w). rewrite Hnone.
    assert (Hp1 : Sim.parent_is_dir dst w1 = true).
    { unfold Sim.parent_is_dir in *. destruct (Sim.parent dst); [|discriminate].
      rewrite (resolve_same_fs w w1) by reflexivity. exact Hparent. }
    rewrite Hp1. reflexivity. }
  assert (Li : Sim.lookup_Z i (Sim.inodes w) = Some nd).
  { unfold Sim.inode_at in Hat.
    destruct (Sim.lookup_name q (Sim.names w)) as [j|]; [|discriminate].
    destruct (Sim.lookup_Z j (Sim.inodes w)) as [nd'|] eqn:E; [|discriminate].
    inversion Hat; subst. exact E. }
  assert (Lsrc : Sim.lookup_Z (Sim.next_fd w) (Sim.open_files w2) = Some (src, i)).
  { simpl. rewrite !lookup_Z_app, Hfd. simpl. rewrite Z.eqb_refl. reflexivity. }
  assert (Ldst : Sim.lookup_Z (Sim.next_fd w + 1) (Sim.open_files w2)
                 = Some (dst, Sim.next_ino w)).
  { simpl. rewrite !lookup_Z_app, Hfd'. simpl.
    destruct (Z.eqb_spec (Sim.next_fd w + 1) (Sim.next_fd w)) as [E|_]; [lia|].
    rewrite Z.eqb_refl. reflexivity. }
  assert (Lisrc : Sim.lookup_Z i (Sim.inodes w2) = Some nd).
  { simpl. rewrite lookup_Z_app, Li. reflexivity. }
  assert (Lidst : Sim.lookup_Z (Sim.next_ino w) (Sim.inodes w2)
                  = Some {| Sim.kind := Sim.Regular ""; Sim.perm := 420 |}).
  { simpl. rewrite lookup_Z_app, Hino. simpl. rewrite Z.eqb_refl. reflexivity. }
  intros n. unfold written_by.
  pose proof (CopyFile_transfer (os := Sim.os) src dst options w w1 w2) as Hrun.
  specialize (Hrun) with (1 := Sstat) (2 := Mp) (3 := Sdst) (5 := Sopen)
                         (6 := Screate).
  rewrite Ml, andb_false_r in Hrun.
  pose proof (fun w3 size cerr => Hrun w3 size cerr eq_refl) as Hrun'. clear Hrun.
  set (w3 := fun (written : Z) (free : option Z) =>
    {| Sim.inodes :=
         Sim.inodes w ++
         [(Sim.next_ino w,
           {| Sim.kind := Sim.Regular (substring 0 (Z.to_nat written) c);
              Sim.perm := 420 |})];
       Sim.names := Sim.names w ++ [(dst, Sim.next_ino w)];
       Sim.open_files := Sim.open_files w2;
       Sim.next_ino := Sim.next_ino w + 1;
       Sim.next_fd := Sim.next_fd w + 1 + 1;
       Sim.disk_free := free;
       Sim.short_write := Sim.short_write w;
       Sim.log := Sim.log w |}).
  assert (Scopy : Sim.Copy (Sim.next_fd w + 1) (Sim.next_fd w) w2 =
            let '(written, failed, free) := written_by w n in
            ((written, option_map (PathError "write" dst) failed), w3 written free)).
  { unfold Sim.Copy. rewrite Lsrc, Ldst, Lisrc, Lidst, K.
    unfold written_by, Sim.append_to, Sim.with_disk_free, Sim.with_fs.
    cbn [Sim.kind Sim.perm Sim.inodes Sim.names Sim.open_files Sim.next_ino
         Sim.next_fd Sim.disk_free Sim.short_write Sim.log w2 w1
         Sim.with_open_files Sim.add_inode Sim.with_fs].
    fold n.
    destruct (Sim.disk_free w) as [free|];
      [destruct (free <? _)|];
      rewrite update_Z_app_fresh by exact Hino; reflexivity. }
  assert (Sclose : forall x,
            Sim.open_files x = Sim.open_files w2 ->
            Sim.next_fd x = Sim.next_fd w + 1 + 1 ->
            snd (Sim.Close (Sim.next_fd w) (snd (Sim.Close (Sim.next_fd w + 1) x)))
              = Sim.with_open_files x (Sim.open_files w) (Sim.next_fd w + 1 + 1)).
  { intros x Hof Hnf. unfold Sim.Close at 2. rewrite Hof, Ldst.
    cbn [snd]. unfold Sim.Close.
    cbn [Sim.open_files Sim.with_open_files Sim.next_fd w2].
    rewrite remove_Z_last.
    2:{ rewrite lookup_Z_app, Hfd'. simpl.
        destruct (Z.eqb_spec (Sim.next_fd w + 1) (Sim.next_fd w)); [lia|reflexivity]. }
    rewrite lookup_Z_app, Hfd. simpl. rewrite Z.eqb_refl. cbn [snd].
    unfold Sim.with_open_files. cbn.
    rewrite remove_Z_last by exact Hfd. rewrite Hnf. reflexivity. }
  change (let '(written, failed, free) := written_by w n in
          let complete := written =? n in
          CopyFile src dst options w =
            (match failed with
             | Some e => ("", Some (PathError "write" dst e))
             | None => if complete then (dst, None)
                       else ("", Some (CopyNotCompleteError src dst))
             end,
             Sim.with_log
               (Sim.with_open_files (w3 written free) (Sim.open_files w)
                  (Sim.next_fd w + 1 + 1))
               (match failed with
                | Some _ => Sim.log w
                | None =>
                  if complete then Sim.log w
                  else (Sim.log w ++
                        [("%s: %d/%d copied",
                          [LogString src; LogInt written; LogInt n])])%list
                end))).
  destruct (written_by w n) as [[written failed] free].
  cbv zeta. rewrite (Hrun' _ _ _ Scopy). rewrite Msz. fold n.
  destruct failed as [e|]; simpl option_map; cbv iota beta.
  - rewrite Sclose by reflexivity. reflexivity.
  - destruct (written =? n).
    + rewrite Sclose by reflexivity. reflexivity.
    + simpl log_Printf. unfold Sim.Printf. cbn [snd].
      rewrite Sclose by reflexivity. reflexivity.
Qed.

Lemma inode_at_extend (w w' : Sim.World) (ns : list (string * Z))
  (tbl : list (Z * Sim.Inode)) (p : string) (x : Z * Sim.Inode) :
  Sim.names w' = (Sim.names w ++ ns)%list ->
  Sim.inodes w' = (Sim.inodes w ++ tbl)%list ->
  Sim.inode_at p w = Some x -> Sim.inode_at p w' = Some x.
Proof.
  intros Hn Hi. unfold Sim.inode_at. rewrite Hn, Hi, lookup_name_app.
  destruct (Sim.lookup_name p (Sim.names w)) as [i|]; [|discriminate].
  rewrite lookup_Z_app.
  destruct (Sim.lookup_Z i (Sim.inodes w)) as [nd|]; [auto|discriminate].
Qed.

Lemma resolve_extend (w w' : Sim.World) (ns : list (string * Z))
  (tbl : list (Z * Sim.Inode)) (op : string) :
  Sim.names w' = (Sim.names w ++ ns)%list ->
  Sim.inodes w' = (Sim.inodes w ++ tbl)%list ->
  forall hops p r,
    Sim.resolve hops op p w = Ok r -> Sim.resolve hops op p w' = Ok r.
Proof.
  intros Hn Hi. induction hops as [|hops IH]; intros p r; simpl.
  - destruct (Sim.inode_at p w) as [[i nd]|] eqn:E; [|discriminate].
    rewrite (inode_at_extend _ _ _ _ _ _ Hn Hi E). auto.
  - destruct (Sim.inode_at p w) as [[i nd]|] eqn:E; [|discriminate].
    rewrite (inode_at_extend _ _ _ _ _ _ Hn Hi E).
    destruct (Sim.kind nd); auto.
    destruct (Sim.resolve hops op target w) as [r'|e] eqn:R.
    + rewrite (IH _ _ R). auto.
    + destruct e; discriminate.
Qed.

Lemma content_of_extend (w w' : Sim.World) (ns : list (string * Z))
  (tbl : list (Z * Sim.Inode)) (p c : string) :
  Sim.names w' = (Sim.names w ++ ns)%list ->
  Sim.inodes w' = (Sim.inodes w ++ tbl)%list ->
  Sim.content_of p w = Some c -> Sim.content_of p w' = Some c.
Proof.
  intros Hn Hi. unfold Sim.content_of.
  destruct (Sim.resolve Sim.max_hops "open" p w) as [r|e] eqn:R; [|discriminate].
  rewrite (resolve_extend _ _ _ _ _ Hn Hi _ _ _ R). auto.
Qed.

Lemma content_of_new (w w' : Sim.World) (p c : string) (pm : Z) :
  Sim.lookup_name p (Sim.names w) = None ->
  Sim.lookup_Z (Sim.next_ino w) (Sim.inodes w) = None ->
  Sim.names w' = (Sim.names w ++ [(p, Sim.next_ino w)])%list ->
  Sim.inodes w' =
    (Sim.inodes w ++
     [(Sim.next_ino w, {| Sim.kind := Sim.Regular c; Sim.perm := pm |})])%list ->
  Sim.content_of p w' = Some c.
Proof.
  intros Hp Hino Hn Hi. unfold Sim.content_of, Sim.max_hops. simpl.
  unfold Sim.inode_at. rewrite Hn, Hi, lookup_name_app, Hp. simpl.
  rewrite String.eqb_refl, lookup_Z_app, Hino. simpl. rewrite Z.eqb_refl.
  reflexivity.
Qed.

(** X10: on the simulated file system, whatever the disk does (full
    after some bytes, or a write cut short without an error), a
    [CopyFile] of a regular file to a name that is not taken, in a
    directory that exists, leaves at [dst] a regular file that holds a
    prefix of the bytes of [src]: what was written stays in place when
    the copy fails.  If no error is returned the prefix is all of [src];
    [src] itself is unchanged and no file is left open. *)
Theorem Sim_CopyFile_any_disk (src dst : string) (options : option CopyOptions)
  (w : Sim.World) (c : string) :
  Sim.content_of src w = Some c ->
  Sim.lookup_name dst (Sim.names w) = None ->
  Sim.parent_is_dir dst w = true ->
  fresh_numbers w ->
  let run := CopyFile src dst options w in
  (exists k, Sim.content_of dst (snd run) = Some (substring 0 k c)) /\
  (snd (fst run) = None ->
   fst run = (dst, None) /\ Sim.content_of dst (snd run) = Some c) /\
  Sim.content_of src (snd run) = Some c /\
  Sim.open_files (snd run) = Sim.open_files w.
Proof.
  intros Hsrc Hdst Hparent Hfresh run. subst run.
  pose proof (CopyFile_fresh src dst options w c Hsrc Hdst Hparent Hfresh) as H.
  cbv zeta in H. destruct Hfresh as (Hino & _).
  destruct (written_by w (Z.of_nat (String.length c))) as [[written failed] free].
  rewrite H. cbn [fst snd]. repeat split.
  - exists (Z.to_nat written). eapply content_of_new; eauto; reflexivity.
  - destruct failed; [discriminate|].
    destruct (written =? _); [reflexivity|discriminate].
  - destruct failed; [discriminate|].
    destruct (Z.eqb_spec written (Z.of_nat (String.length c))) as [->|];
      [|discriminate].
    eapply content_of_new; eauto; try reflexivity.
    cbn. rewrite Nat2Z.id, substring_all. reflexivity.
  - eapply content_of_extend; [| |exact Hsrc]; reflexivity.
Qed.

(** X9: on the simulated file system with a healthy disk, copying a
    regular file to a name that is not taken, in a directory that exists,
    succeeds: [Copy2] does what [CopyFile] does, returns [dst], and a
    full read of [dst] then yields the bytes of [src], which are still
    the bytes of [src]. *)
Theorem Sim_CopyFile_round_trip (src dst : string) (options : option CopyOptions)
  (w : Sim.World) (c : string) :
  Sim.content_of src w = Some c ->
  Sim.lookup_name dst (Sim.names w) = None ->
  Sim.parent_is_dir dst w = true ->
  fresh_numbers w ->
  Sim.disk_free w = None ->
  Sim.short_write w = None ->
  let run := Copy2 src dst options w in
  run = CopyFile src dst options w /\
  fst run = (dst, None) /\
  Sim.content_of dst (snd run) = Some c /\
  Sim.content_of src (snd run) = Some c.
Proof.
  intros Hsrc Hdst Hparent Hfresh Hdisk Hshort run. subst run.
  assert (E : Copy2 src dst options w = CopyFile src dst options w).
  { rewrite Copy2_at_destination. unfold destinationOf. simpl.
    unfold Sim.Stat. rewrite resolve_missing.
    - rewrite Sim_CopyFile_policy_without_effect.
      symmetry. apply Sim_CopyFile_policy_without_effect.
    - unfold Sim.inode_at. rewrite Hdst. reflexivity. }
  rewrite E. split; [reflexivity|].
  pose proof (CopyFile_fresh src dst options w c Hsrc Hdst Hparent Hfresh) as H.
  cbv zeta in H. unfold written_by in H. rewrite Hdisk, Hshort in H.
  rewrite Z.eqb_refl in H. rewrite H. cbn [fst snd]. destruct Hfresh as (Hino & _).
  repeat split.
  - eapply content_of_new; eauto; try reflexivity.
    cbn. rewrite Nat2Z.id, substring_all. reflexivity.
  - eapply content_of_extend; [| |exact Hsrc]; reflexivity.
Qed.


(** ** What the simulated calls change *)

Lemma Open_effect (src : string) (w : Sim.World) :
  match Sim.Open src w with
  | (Err _, w1) => w1 = w
  | (Ok fd, w1) =>
    fd = Sim.next_fd w /\
    exists q i nd,
      Sim.resolve Sim.max_hops "open" src w = Ok (q, i, nd) /\
      w1 = Sim.with_open_files w
             (Sim.open_files w ++ [(Sim.next_fd w, (src, i))]) (Sim.next_fd w + 1)
  end.
Proof.
  unfold Sim.Open.
  destruct (Sim.resolve Sim.max_hops "open" src w) as [[[q i] nd]|e]; simpl; eauto 8.
Qed.

Lemma Create_effect (dst : string) (w : Sim.World) :
  match Sim.Create dst w with
  | (Err _, w2) => w2 = w
  | (Ok fd, w2) =>
    fd = Sim.next_fd w /\
    exists j,
      Sim.open_files w2 = (Sim.open_files w ++ [(Sim.next_fd w, (dst, j))])%list /\
      Sim.next_fd w2 = Sim.next_fd w + 1 /\
      ((j = Sim.next_ino w /\
        Sim.names w2 = (Sim.names w ++ [(dst, j)])%list /\
        Sim.inodes w2 =
          (Sim.inodes w ++
           [(j, {| Sim.kind := Sim.Regular ""; Sim.perm := 420 |})])%list) \/
       (exists q ndj,
          Sim.resolve Sim.max_hops "open" dst w = Ok (q, j, ndj) /\
          Sim.names w2 = Sim.names w /\
          (Sim.inodes w2 = Sim.inodes w \/
           (exists old, Sim.kind ndj = Sim.Regular old) /\
           Sim.inodes w2 =
             Sim.update_Z j {| Sim.kind := Sim.Regular ""; Sim.perm := Sim.perm ndj |}
               (Sim.inodes w))))
  end.
Proof.
  unfold Sim.Create.
  destruct (Sim.inode_at dst w) as [x|].
  - destruct (Sim.resolve Sim.max_hops "open" dst w) as [[[q j] ndj]|e] eqn:R;
      [|reflexivity].
    destruct (Sim.kind ndj) eqn:K; simpl; try reflexivity;
      (split; [reflexivity|]; exists j; split; [reflexivity|];
       split; [reflexivity|]; right; exists q, ndj;
       split; [reflexivity|]; split; [reflexivity|]); eauto.
  - destruct (Sim.parent_is_dir dst w); [|reflexivity]. simpl.
    split; [reflexivity|]. exists (Sim.next_ino w). auto 8.
Qed.

Lemma Copy_effect (fdst fsrc : Z) (w : Sim.World) :
  let w3 := snd (Sim.Copy fdst fsrc w) in
  Sim.open_files w3 = Sim.open_files w /\
  Sim.next_fd w3 = Sim.next_fd w /\
  Sim.names w3 = Sim.names w /\
  (Sim.inodes w3 = Sim.inodes w \/
   exists pd idst nd old data,
     Sim.lookup_Z fdst (Sim.open_files w) = Some (pd, idst) /\
     Sim.lookup_Z idst (Sim.inodes w) = Some nd /\
     Sim.kind nd = Sim.Regular old /\
     Sim.inodes w3 =
       Sim.update_Z idst {| Sim.kind := Sim.Regular (old ++ data); Sim.perm := Sim.perm nd |}
         (Sim.inodes w)).
Proof.
  unfold Sim.Copy.
  destruct (Sim.lookup_Z fsrc (Sim.open_files w)) as [[ps isrc]|]; [|simpl; auto].
  destruct (Sim.lookup_Z fdst (Sim.open_files w)) as [[pd idst]|] eqn:Ld;
    [|simpl; auto].
  destruct (Sim.lookup_Z isrc (Sim.inodes w)) as [ns|]; [|simpl; auto].
  destruct (Sim.lookup_Z idst (Sim.inodes w)) as [nd|] eqn:Li; [|simpl; auto].
  destruct (Sim.kind ns) as [content| | |] eqn:Ks; try (simpl; auto 6; fail);
    destruct (Sim.kind nd) as [old| | |] eqn:Kd; try (simpl; auto 6; fail).
  destruct (Sim.disk_free w) as [free|]; [destruct (free <? _)|]; simpl;
    (repeat split; right; eexists pd, idst, nd, old, _; auto).
Qed.

Lemma Close_effect (fd : Z) (w : Sim.World) :
  let w' := snd (Sim.Close fd w) in
  Sim.names w' = Sim.names w /\
  Sim.inodes w' = Sim.inodes w /\
  Sim.open_files w' = Sim.remove_Z fd (Sim.open_files w).
Proof.
  unfold Sim.Close.
  destruct (Sim.lookup_Z fd (Sim.open_files w)) eqn:L; simpl; auto.
  rewrite remove_Z_fresh by exact L. auto.
Qed.



Lemma keeps_same (i : Z) (w w' : Sim.World) :
  Sim.names w' = Sim.names w -> Sim.inodes w' = Sim.inodes w -> keeps i w w'.
Proof.
  intros Hn Hi. split; intros; rewrite ?Hn, ?Hi; assumption.
Qed.

Lemma keeps_trans (i : Z) (w1 w2 w3 : Sim.World) :
  keeps i w1 w2 -> keeps i w2 w3 -> keeps i w1 w3.
Proof.
  intros [N1 I1] [N2 I2]. split; intros; eauto.
Qed.

Lemma keeps_append (i : Z) (w w' : Sim.World) (ns : list (string * Z))
  (tbl : list (Z * Sim.Inode)) :
  Sim.names w' = (Sim.names w ++ ns)%list ->
  Sim.inodes w' = (Sim.inodes w ++ tbl)%list ->
  keeps i w w'.
Proof.
  intros Hn Hi. split.
  - intros p k H. rewrite Hn, lookup_name_app, H. reflexivity.
  - intros k nd H _. rewrite Hi, lookup_Z_app, H. reflexivity.
Qed.

Lemma keeps_update (i j : Z) (w w' : Sim.World) (a ndj : Sim.Inode) :
  Sim.names w' = Sim.names w ->
  Sim.inodes w' = Sim.update_Z j a (Sim.inodes w) ->
  j <> i ->
  Sim.lookup_Z j (Sim.inodes w) = Some ndj ->
  is_link (Sim.kind ndj) = false ->
  keeps i w w'.
Proof.
  intros Hn Hi Hji Hj Hk. split.
  - intros p k H. rewrite Hn. exact H.
  - intros k nd H Hor. rewrite Hi, lookup_Z_update.
    destruct (Z.eqb_spec k j) as [->|]; [|exact H].
    rewrite Hj in H. inversion H; subst.
    destruct Hor as [Hl|Hl]; congruence.
Qed.

Lemma resolve_keeps (i : Z) (w w' : Sim.World) (op : string) :
  keeps i w w' ->
  forall hops p q nd,
    Sim.resolve hops op p w = Ok (q, i, nd) ->
    Sim.resolve hops op p w' = Ok (q, i, nd).
Proof.
  intros [Hn Hi].
  assert (Hat : forall p k ndk,
            Sim.inode_at p w = Some (k, ndk) ->
            is_link (Sim.kind ndk) = true \/ k = i ->
            Sim.inode_at p w' = Some (k, ndk)).
  { intros p k ndk. unfold Sim.inode_at.
    destruct (Sim.lookup_name p (Sim.names w)) as [k'|] eqn:E; [|discriminate].
    rewrite (Hn _ _ E).
    destruct (Sim.lookup_Z k' (Sim.inodes w)) as [nd'|] eqn:E'; [|discriminate].
    intros H Hor. inversion H; subst. rewrite (Hi _ _ E' Hor). reflexivity. }
  induction hops as [|hops IH]; intros p q nd; simpl.
  - destruct (Sim.inode_at p w) as [[k ndk]|] eqn:E; [|discriminate].
    destruct (Sim.kind ndk) eqn:K; try discriminate;
      intros H; inversion H; subst;
      rewrite (Hat _ _ _ E (or_intror eq_refl)), K; reflexivity.
  - destruct (Sim.inode_at p w) as [[k ndk]|] eqn:E; [|discriminate].
    destruct (Sim.kind ndk) eqn:K;
      try (intros H; inversion H; subst;
           rewrite (Hat _ _ _ E (or_intror eq_refl)), K; reflexivity).
    rewrite (Hat _ _ _ E); [|left; rewrite K; reflexivity]. rewrite K.
    destruct (Sim.resolve hops op target w) as [[[q' i'] nd']|e] eqn:R.
    + intros H. inversion H; subst. rewrite (IH _ _ _ R). reflexivity.
    + destruct e; discriminate.
Qed.

Lemma inode_lookup (w : Sim.World) (q : string) (i : Z) (nd : Sim.Inode) :
  Sim.inode_at q w = Some (i, nd) -> Sim.lookup_Z i (Sim.inodes w) = Some nd.
Proof.
  unfold Sim.inode_at.
  destruct (Sim.lookup_name q (Sim.names w)) as [j|]; [|discriminate].
  destruct (Sim.lookup_Z j (Sim.inodes w)) as [nd'|] eqn:E; [|discriminate].
  intros H. inversion H; subst. exact E.
Qed.

Lemma Sim_CopyFile_effect (src dst : string) (options : option CopyOptions)
  (w : Sim.World) :
  fresh_numbers w ->
  let w' := snd (CopyFile src dst options w) in
  Sim.open_files w' = Sim.open_files w /\
  (forall q i nd,
     Sim.resolve Sim.max_hops "open" src w = Ok (q, i, nd) -> keeps i w w').
Proof.
  intros (Hino & Hfd & Hfd') w'. subst w'.
  rewrite Sim_CopyFile_policy_without_effect.
  destruct (passes_checks src dst w) as [si|] eqn:P.
  2:{ rewrite (CopyFile_stopped _ _ _ _ P).
      split; [reflexivity|]. intros. apply keeps_same; reflexivity. }
  apply passes_checks_Some in P. destruct P as (Hs & Hp & Hd).
  pose proof (CopyFile_calls src dst None w si Hs Hp Hd eq_refl) as F.
  change (@os_Open _ Sim.os src w) with (Sim.Open src w) in F.
  pose proof (Open_effect src w) as O.
  destruct (Sim.Open src w) as [[fd|e] w1].
  2:{ rewrite F. subst w1. split; [reflexivity|].
      intros. apply keeps_same; reflexivity. }
  destruct O as (-> & q & i & nd & Rsrc & ->).
  set (w1 := Sim.with_open_files w
               (Sim.open_files w ++ [(Sim.next_fd w, (src, i))])
               (Sim.next_fd w + 1)) in *.
  change (@os_Create _ Sim.os dst w1) with (Sim.Create dst w1) in F.
  pose proof (Create_effect dst w1) as C.
  destruct (Sim.Create dst w1) as [[fd'|e] w2].
  2:{ rewrite F. subst w2. cbn [snd].
      destruct (Close_effect (Sim.next_fd w) w1) as (Cn & Ci & Co).
      change (@File_Close _ Sim.os) with Sim.Close.
      split.
      - rewrite Co. subst w1. cbn. apply remove_Z_last. exact Hfd.
      - intros. apply keeps_same; [rewrite Cn|rewrite Ci]; reflexivity. }
  destruct C as (-> & j & Cof & Cnf & Cfs).
  change (Sim.next_fd w1) with (Sim.next_fd w + 1) in *.
  change (Sim.open_files w1)
    with (Sim.open_files w ++ [(Sim.next_fd w, (src, i))])%list in Cof.
  change (@io_Copy _ Sim.os (Sim.next_fd w + 1) (Sim.next_fd w) w2)
    with (Sim.Copy (Sim.next_fd w + 1) (Sim.next_fd w) w2) in F.
  pose proof (Copy_effect (Sim.next_fd w + 1) (Sim.next_fd w) w2) as Y.
  destruct (Sim.Copy (Sim.next_fd w + 1) (Sim.next_fd w) w2) as [[size cerr] w3].
  cbn [snd] in Y. destruct Y as (Yof & Ynf & Yn & Yi).
  cbv zeta in F.
  match type of F with
  | _ = snd (File_Close _ (snd (File_Close _ ?x))) => set (w4 := x) in *
  end.
  assert (W4 : Sim.open_files w4 = Sim.open_files w3 /\
               Sim.names w4 = Sim.names w3 /\ Sim.inodes w4 = Sim.inodes w3).
  { subst w4. destruct cerr; [auto|].
    destruct (size =? Size si); [auto|]. cbn. auto. }
  destruct W4 as (Wof & Wn & Wi).
  change (@File_Close _ Sim.os) with Sim.Close in F. rewrite F.
  destruct (Close_effect (Sim.next_fd w + 1) w4) as (An & Ai & Ao).
  destruct (Close_effect (Sim.next_fd w)
              (snd (Sim.Close (Sim.next_fd w + 1) w4))) as (Bn & Bi & Bo).
  assert (Lfd' : Sim.lookup_Z (Sim.next_fd w + 1)
                   (Sim.open_files w ++ [(Sim.next_fd w, (src, i))]) = None).
  { rewrite lookup_Z_app, Hfd'. simpl.
    destruct (Z.eqb_spec (Sim.next_fd w + 1) (Sim.next_fd w)); [lia|reflexivity]. }
  split.
  - rewrite Bo, Ao, Wof, Yof, Cof.
    rewrite (remove_Z_last _ _ _ Lfd'). apply remove_Z_last. exact Hfd.
  - intros q0 i0 nd0 R0. rewrite Rsrc in R0. inversion R0; subst q0 i0 nd0.
    pose proof (inode_lookup _ _ _ _ (resolve_inode _ _ _ _ _ _ _ Rsrc)) as Li.
    assert (Hji : forall q' ndj,
              Sim.resolve Sim.max_hops "open" dst w1 = Ok (q', j, ndj) -> j <> i).
    { intros q' ndj R. rewrite (resolve_same_fs w w1) in R by reflexivity.
      pose proof (resolve_op _ _ "stat" _ _ _ R) as R'.
      pose proof (resolve_op _ _ "stat" _ _ _ Rsrc) as Rs'.
      unfold dst_accepted in Hd. simpl in Hd, Hs. unfold Sim.Stat in Hd, Hs.
      rewrite R' in Hd. rewrite Rs' in Hs. inversion Hs; subst si.
      destruct Hd as [Hsame _]. unfold os_SameFile in Hsame. simpl in Hsame.
      intros ->. rewrite Z.eqb_refl in Hsame. discriminate. }
    assert (K12 : keeps i w w2 /\ j <> i).
    { destruct Cfs as [(-> & Cn & Ci)|(q' & ndj & R & Cn & Ci)].
      - split; [eapply keeps_append; eauto|].
        change (Sim.next_ino w1) with (Sim.next_ino w).
        intros E. rewrite E in Hino. congruence.
      - split; [|eauto].
        destruct Ci as [Ci|[[old Kold] Ci]].
        + apply keeps_same; assumption.
        + eapply (keeps_update i j w w2); eauto.
          * rewrite (resolve_same_fs w w1) in R by reflexivity.
            exact (inode_lookup _ _ _ _ (resolve_inode _ _ _ _ _ _ _ R)).
          * rewrite Kold. reflexivity. }
    destruct K12 as [K12 Hne].
    assert (K23 : keeps i w2 w3).
    { destruct Yi as [Yi|(pd & idst & ndd & old & data & Ld & Lid & Kd & Yi)].
      - apply keeps_same; assumption.
      - rewrite Cof, lookup_Z_app, Lfd' in Ld. simpl in Ld.
        rewrite Z.eqb_refl in Ld. inversion Ld; subst pd idst.
        eapply keeps_update; eauto. rewrite Kd. reflexivity. }
    eapply keeps_trans; [exact K12|].
    eapply keeps_trans; [exact K23|].
    apply keeps_same; [rewrite Bn, An, Wn|rewrite Bi, Ai, Wi]; reflexivity.
Qed.

(** X11: on the simulated file system [CopyFile] never changes the
    bytes of [src], whatever [dst] is and however the call ends: the
    same-file check keeps the truncation of [dst] away from [src]. *)
Theorem Sim_CopyFile_spares_src (src dst : string) (options : option CopyOptions)
  (w : Sim.World) (c : string) :
  Sim.content_of src w = Some c ->
  fresh_numbers w ->
  Sim.content_of src (snd (CopyFile src dst options w)) = Some c.
Proof.
  intros Hc Hfresh.
  destruct (Sim_CopyFile_effect src dst options w Hfresh) as [_ Hk].
  unfold Sim.content_of in *.
  destruct (Sim.resolve Sim.max_hops "open" src w) as [[[q i] nd]|e] eqn:R;
    [|discriminate].
  rewrite (resolve_keeps i _ _ "open" (Hk _ _ _ eq_refl) _ _ _ _ R). exact Hc.
Qed.

(** X12: on the simulated file system [CopyFile] leaves the table of
    open files as it found it, whatever the paths and however the call
    ends. *)
Theorem Sim_CopyFile_no_leak (src dst : string) (options : option CopyOptions)
  (w : Sim.World) :
  fresh_numbers w ->
  Sim.open_files (snd (CopyFile src dst options w)) = Sim.open_files w.
Proof.
  intros Hfresh. apply (Sim_CopyFile_effect src dst options w Hfresh).
Qed.


Lemma names_bound_lookup (w : Sim.World) (p : string) :
  names_bound w = true ->
  Sim.inode_at p w = None -> Sim.lookup_name p (Sim.names w) = None.
Proof.
  unfold names_bound, Sim.inode_at. intros Hb.
  destruct (Sim.lookup_name p (Sim.names w)) as [k|] eqn:E; [|reflexivity].
  assert (Hk : Sim.lookup_Z k (Sim.inodes w) <> None).
  { revert E. induction (Sim.names w) as [|[q j] ns IH]; simpl in *; [discriminate|].
    apply andb_prop in Hb. destruct Hb as [Hj Hns].
    destruct (String.eqb p q).
    - intros E. inversion E; subst.
      destruct (Sim.lookup_Z k (Sim.inodes w)); [discriminate|discriminate].
    - apply IH. exact Hns. }
  destruct (Sim.lookup_Z k (Sim.inodes w)); [discriminate|contradiction].
Qed.

(** [Sim.Create], when it succeeds, leaves an empty regular file or
    something that is not a regular file. *)
Lemma Create_empties (dst : string) (w w2 : Sim.World) (fd : Z) :
  Sim.Create dst w = (Ok fd, w2) ->
  exists j,
    Sim.open_files w2 = (Sim.open_files w ++ [(Sim.next_fd w, (dst, j))])%list /\
    ((Sim.inode_at dst w = None /\
      j = Sim.next_ino w /\
      Sim.names w2 = (Sim.names w ++ [(dst, j)])%list /\
      Sim.inodes w2 =
        (Sim.inodes w ++
         [(j, {| Sim.kind := Sim.Regular ""; Sim.perm := 420 |})])%list) \/
     (exists q ndj,
        Sim.resolve Sim.max_hops "open" dst w = Ok (q, j, ndj) /\
        Sim.names w2 = Sim.names w /\
        ((Sim.inodes w2 = Sim.inodes w /\ forall old, Sim.kind ndj <> Sim.Regular old) \/
         Sim.inodes w2 =
           Sim.update_Z j {| Sim.kind := Sim.Regular ""; Sim.perm := Sim.perm ndj |}
             (Sim.inodes w)))).
Proof.
  unfold Sim.Create.
  destruct (Sim.inode_at dst w) as [x|] eqn:Hat.
  - destruct (Sim.resolve Sim.max_hops "open" dst w) as [[[q j] ndj]|e] eqn:R;
      [|discriminate].
    destruct (Sim.kind ndj) eqn:K; try discriminate;
      unfold Sim.open_fd; intros H; inversion H; subst; clear H;
      exists j; (split; [reflexivity|]); right; exists q, ndj;
      (split; [reflexivity|]); (split; [reflexivity|]).
    + right. reflexivity.
    + left. split; [reflexivity|]. intros old. rewrite K. discriminate.
    + left. split; [reflexivity|]. intros old. rewrite K. discriminate.
  - destruct (Sim.parent_is_dir dst w); [|discriminate].
    unfold Sim.open_fd. intros H. inversion H; subst; clear H.
    exists (Sim.next_ino w). split; [reflexivity|]. left. auto.
Qed.

(** [Sim.Copy], when it reports no error, has appended to a regular file
    the first [size] bytes of a regular file. *)
Lemma Copy_appends (fdst fsrc size : Z) (w w3 : Sim.World) :
  Sim.Copy fdst fsrc w = ((size, None), w3) ->
  exists ps isrc pd idst ns nd content old,
    Sim.lookup_Z fsrc (Sim.open_files w) = Some (ps, isrc) /\
    Sim.lookup_Z fdst (Sim.open_files w) = Some (pd, idst) /\
    Sim.lookup_Z isrc (Sim.inodes w) = Some ns /\
    Sim.lookup_Z idst (Sim.inodes w) = Some nd /\
    Sim.kind ns = Sim.Regular content /\
    Sim.kind nd = Sim.Regular old /\
    Sim.names w3 = Sim.names w /\
    Sim.inodes w3 =
      Sim.update_Z idst
        {| Sim.kind := Sim.Regular (old ++ substring 0 (Z.to_nat size) content);
           Sim.perm := Sim.perm nd |} (Sim.inodes w).
Proof.
  unfold Sim.Copy.
  destruct (Sim.lookup_Z fsrc (Sim.open_files w)) as [[ps isrc]|] eqn:L1;
    [|discriminate].
  destruct (Sim.lookup_Z fdst (Sim.open_files w)) as [[pd idst]|] eqn:L2;
    [|discriminate].
  destruct (Sim.lookup_Z isrc (Sim.inodes w)) as [ns|] eqn:L3; [|discriminate].
  destruct (Sim.lookup_Z idst (Sim.inodes w)) as [nd|] eqn:L4; [|discriminate].
  destruct (Sim.kind ns) as [content| | |] eqn:Ks; try discriminate;
    destruct (Sim.kind nd) as [old| | |] eqn:Kd; try discriminate.
  destruct (Sim.disk_free w) as [free|]; [destruct (free <? _); [discriminate|]|];
    intros H; inversion H; subst; clear H;
    exists ps, isrc, pd, idst, ns, nd, content, old; repeat split; assumption.
Qed.

(** Following links in a world that keeps the names and the links leads
    to the same inode number, whatever that inode has become. *)
Lemma resolve_moved (i : Z) (w w' : Sim.World) (op : string) :
  keeps i w w' ->
  forall hops p q j ndj nd',
    Sim.resolve hops op p w = Ok (q, j, ndj) ->
    Sim.lookup_Z j (Sim.inodes w') = Some nd' ->
    is_link (Sim.kind nd') = false ->
    Sim.resolve hops op p w' = Ok (q, j, nd').
Proof.
  intros [Hn Hi].
  assert (Hname : forall p k ndk,
            Sim.inode_at p w = Some (k, ndk) ->
            Sim.lookup_name p (Sim.names w') = Some k).
  { intros p k ndk. unfold Sim.inode_at.
    destruct (Sim.lookup_name p (Sim.names w)) as [k'|] eqn:E; [|discriminate].
    destruct (Sim.lookup_Z k' (Sim.inodes w)); [|discriminate].
    intros H. inversion H; subst. eauto. }
  assert (Hlink : forall p k ndk,
            Sim.inode_at p w = Some (k, ndk) ->
            is_link (Sim.kind ndk) = true ->
            Sim.inode_at p w' = Some (k, ndk)).
  { intros p k ndk Hat Hl. unfold Sim.inode_at. rewrite (Hname _ _ _ Hat).
    rewrite (Hi k ndk); [reflexivity| |auto].
    exact (inode_lookup _ _ _ _ Hat). }
  assert (Hend : forall p k ndk nd',
            Sim.inode_at p w = Some (k, ndk) ->
            Sim.lookup_Z k (Sim.inodes w') = Some nd' ->
            Sim.inode_at p w' = Some (k, nd')).
  { intros p k ndk nd' Hat Hl. unfold Sim.inode_at.
    rewrite (Hname _ _ _ Hat), Hl. reflexivity. }
  induction hops as [|hops IH]; intros p q j ndj nd' R Hj Hnl; simpl in *.
  - destruct (Sim.inode_at p w) as [[k ndk]|] eqn:E; [|discriminate].
    assert (Ok (p, k, ndk) = Ok (q, j, ndj)) as Heq
      by (destruct (Sim.kind ndk); try discriminate; exact R).
    inversion Heq; subst. rewrite (Hend _ _ _ _ E Hj).
    destruct (Sim.kind nd'); try reflexivity; discriminate.
  - destruct (Sim.inode_at p w) as [[k ndk]|] eqn:E; [|discriminate].
    destruct (Sim.kind ndk) eqn:K.
    1,2,4: inversion R; subst; rewrite (Hend _ _ _ _ E Hj);
           destruct (Sim.kind nd'); try reflexivity; discriminate.
    rewrite (Hlink _ _ _ E); [|rewrite K; reflexivity]. rewrite K.
    destruct (Sim.resolve hops op target w) as [[[q' i'] nd'']|e] eqn:R'.
    + inversion R; subst. rewrite (IH _ _ _ _ _ R' Hj Hnl). reflexivity.
    + destruct e; discriminate.
Qed.


Lemma content_of_direct (w : Sim.World) (p c : string) (j : Z) (nd : Sim.Inode) :
  Sim.inode_at p w = Some (j, nd) ->
  Sim.kind nd = Sim.Regular c ->
  Sim.content_of p w = Some c.
Proof.
  intros Hat K. unfold Sim.content_of, Sim.max_hops. simpl.
  rewrite Hat, K, K. reflexivity.
Qed.

Lemma Sim_CopyFile_success (src dst : string) (options : option CopyOptions)
  (w w' : Sim.World) (p : string) :
  fresh_numbers w ->
  names_bound w = true ->
  CopyFile src dst options w = ((p, None), w') ->
  exists c, Sim.content_of src w = Some c /\ Sim.content_of dst w' = Some c.
Proof.
  intros Hfresh Hbound H.
  pose proof (Sim_CopyFile_effect src dst options w Hfresh) as [_ Hkeeps].
  rewrite H in Hkeeps. cbn [snd] in Hkeeps.
  destruct Hfresh as (Hino & Hfd & Hfd').
  rewrite Sim_CopyFile_policy_without_effect in H.
  destruct (passes_checks src dst w) as [si|] eqn:P.
  2:{ apply (CopyFile_stopped_error src dst None) in P. rewrite H in P.
      contradiction. }
  apply passes_checks_Some in P. destruct P as (Hs & Hp & Hd).
  pose proof (CopyFile_calls src dst None w si Hs Hp Hd eq_refl) as F.
  destruct (os_Open src w) as [[fd|e] w1] eqn:Ho; [|congruence].
  destruct (os_Create dst w1) as [[fd'|e] w2] eqn:Hc; [|congruence].
  clear F.
  destruct (io_Copy fd' fd w2) as [[size cerr] w3] eqn:Hy.
  pose proof (CopyFile_transfer src dst None w w1 w2 w3 si fd fd' size cerr
                Hs Hp Hd eq_refl Ho Hc Hy) as F.
  cbv zeta in F. rewrite F in H. clear F.
  destruct cerr as [e|]; [discriminate|].
  destruct (Z.eqb_spec size (Size si)) as [Hsize|]; [|discriminate].
  inversion H; subst p. clear H. rename H2 into Hw'.
  (* the calls *)
  pose proof (Open_effect src w) as O.
  change (@os_Open _ Sim.os src w) with (Sim.Open src w) in Ho.
  rewrite Ho in O. destruct O as (-> & q & i & nd & Rsrc & ->).
  set (w1 := Sim.with_open_files w
               (Sim.open_files w ++ [(Sim.next_fd w, (src, i))])
               (Sim.next_fd w + 1)) in *.
  pose proof (inode_lookup _ _ _ _ (resolve_inode _ _ _ _ _ _ _ Rsrc)) as Li.
  assert (Hsi : si = Sim.info src i nd).
  { simpl in Hs. unfold Sim.Stat in Hs.
    rewrite (resolve_op _ _ "stat" _ _ _ Rsrc) in Hs. inversion Hs. reflexivity. }
  change (@os_Create _ Sim.os dst w1) with (Sim.Create dst w1) in Hc.
  pose proof (Create_effect dst w1) as C. rewrite Hc in C. destruct C as (-> & _).
  change (Sim.next_fd w1) with (Sim.next_fd w + 1) in *.
  destruct (Create_empties _ _ _ _ Hc) as (j & Cof & Cfs).
  change (Sim.open_files w1)
    with (Sim.open_files w ++ [(Sim.next_fd w, (src, i))])%list in Cof.
  change (Sim.next_fd w1) with (Sim.next_fd w + 1) in Cof.
  change (@io_Copy _ Sim.os (Sim.next_fd w + 1) (Sim.next_fd w) w2)
    with (Sim.Copy (Sim.next_fd w + 1) (Sim.next_fd w) w2) in Hy.
  destruct (Copy_appends _ _ _ _ _ Hy)
    as (ps & isrc & pd & idst & ns & ndd & content & old &
        Ls & Ld & Lis & Lid & Ks & Kd & Yn & Yi).
  assert (Lfd' : Sim.lookup_Z (Sim.next_fd w + 1)
                   (Sim.open_files w ++ [(Sim.next_fd w, (src, i))]) = None).
  { rewrite lookup_Z_app, Hfd'. simpl.
    destruct (Z.eqb_spec (Sim.next_fd w + 1) (Sim.next_fd w)); [lia|reflexivity]. }
  rewrite Cof, lookup_Z_app, Lfd' in Ld. simpl in Ld. rewrite Z.eqb_refl in Ld.
  inversion Ld; subst pd idst. clear Ld.
  rewrite Cof, !lookup_Z_app, Hfd in Ls. simpl in Ls. rewrite Z.eqb_refl in Ls.
  inversion Ls; subst ps isrc. clear Ls.
  (* the final world has the names and the inodes of [w3] *)
  assert (Wn : Sim.names w' = Sim.names w3 /\ Sim.inodes w' = Sim.inodes w3).
  { rewrite <- Hw'. change (@File_Close _ Sim.os) with Sim.Close.
    destruct (Close_effect (Sim.next_fd w + 1) w3) as (An & Ai & _).
    destruct (Close_effect (Sim.next_fd w)
                (snd (Sim.Close (Sim.next_fd w + 1) w3))) as (Bn & Bi & _).
    split; congruence. }
  destruct Wn as [Wn Wi].
  assert (Hnew : Sim.lookup_Z j (Sim.inodes w') =
                 Some {| Sim.kind :=
                           Sim.Regular (old ++ substring 0 (Z.to_nat size) content);
                         Sim.perm := Sim.perm ndd |}).
  { rewrite Wi, Yi, lookup_Z_update, Z.eqb_refl. reflexivity. }
  (* what [src] and [dst] were when the copy began *)
  assert (Hji : forall q' ndj,
            Sim.resolve Sim.max_hops "open" dst w1 = Ok (q', j, ndj) -> j <> i).
  { intros q' ndj R. rewrite (resolve_same_fs w w1) in R by reflexivity.
    pose proof (resolve_op _ _ "stat" _ _ _ R) as R'.
    unfold dst_accepted in Hd. simpl in Hd. unfold Sim.Stat in Hd.
    rewrite R', Hsi in Hd.
    destruct Hd as [Hsame _]. unfold os_SameFile in Hsame. simpl in Hsame.
    intros ->. rewrite Z.eqb_refl in Hsame. discriminate. }
  assert (Hstart : ns = nd /\ old = "").
  { destruct Cfs as [(Hnone & -> & Cn & Ci)|(q' & ndj & R & Cn & Ci)].
    - rewrite Ci in Lis, Lid. change (Sim.inodes w1) with (Sim.inodes w) in *.
      change (Sim.next_ino w1) with (Sim.next_ino w) in *.
      rewrite lookup_Z_app, Li in Lis.
      rewrite lookup_Z_app, Hino in Lid. simpl in Lid. rewrite Z.eqb_refl in Lid.
      inversion Lis. inversion Lid; subst ndd. simpl in Kd. inversion Kd. auto.
    - pose proof (Hji _ _ R) as Hne.
      pose proof (inode_lookup _ _ _ _ (resolve_inode _ _ _ _ _ _ _ R)) as Lj.
      change (Sim.inodes w1) with (Sim.inodes w) in *.
      destruct Ci as [[Ci Hnr]|Ci].
      + rewrite Ci in Lid. rewrite Lj in Lid. inversion Lid; subst ndd.
        exfalso. exact (Hnr _ Kd).
      + rewrite Ci, lookup_Z_update in Lis, Lid. rewrite Z.eqb_refl in Lid.
        destruct (Z.eqb_spec i j) as [E|_]; [congruence|].
        rewrite Li in Lis. inversion Lis. inversion Lid; subst ndd.
        simpl in Kd. inversion Kd. auto. }
  destruct Hstart as [-> ->].
  assert (Hall : substring 0 (Z.to_nat size) content = content).
  { rewrite Hsize, Hsi. simpl. rewrite Ks. simpl.
    rewrite Nat2Z.id. apply substring_all. }
  rewrite Hall in Hnew. simpl in Hnew.
  exists content. rewrite ?Hw'. split.
  - unfold Sim.content_of. rewrite Rsrc, Ks. reflexivity.
  - destruct Cfs as [(Hnone & -> & Cn & Ci)|(q' & ndj & R & Cn & Ci)].
    + apply (content_of_direct _ _ _ (Sim.next_ino w1)
               {| Sim.kind := Sim.Regular content; Sim.perm := Sim.perm ndd |});
        [|reflexivity].
      unfold Sim.inode_at. rewrite Wn, Yn, Cn. rewrite lookup_name_app.
      change (Sim.names w1) with (Sim.names w).
      rewrite (names_bound_lookup w dst Hbound Hnone). simpl.
      change (Sim.next_ino w1) with (Sim.next_ino w) in Hnew.
      rewrite String.eqb_refl, Hnew. reflexivity.
    + rewrite (resolve_same_fs w w1) in R by reflexivity.
      unfold Sim.content_of.
      rewrite (resolve_moved i w w' "open" (Hkeeps _ _ _ Rsrc) _ _ _ _ _ _
                 R Hnew eq_refl).
      reflexivity.
Qed.

(** X8: on the simulated file system, success means a faithful copy: if
    [CopyFile] or [Copy2] returns a path without error, whatever [dst]
    was (missing, an existing file, a link to one, a directory for
    [Copy2]) and whatever the disk does, then [src] was a regular file
    and a full read of the returned path yields its bytes. *)
Theorem Sim_success_is_faithful (src dst : string) (options : option CopyOptions)
  (w : Sim.World) :
  fresh_numbers w ->
  names_bound w = true ->
  (forall p w',
     CopyFile src dst options w = ((p, None), w') ->
     exists c, Sim.content_of src w = Some c /\ Sim.content_of p w' = Some c) /\
  (forall p w',
     Copy2 src dst options w = ((p, None), w') ->
     exists c, Sim.content_of src w = Some c /\ Sim.content_of p w' = Some c).
Proof.
  intros Hfresh Hbound. split; intros p w' H.
  - rewrite (CopyFile_success_path _ _ _ _ _ _ H).
    eapply Sim_CopyFile_success; eauto.
  - rewrite Copy2_at_destination in H.
    rewrite (CopyFile_success_path _ _ _ _ _ _ H).
    eapply Sim_CopyFile_success; eauto.
Qed.

(** ** More concrete runs *)

Lemma demo_fresh : fresh_numbers demo.
Proof.
  repeat split.
Qed.

Lemma Sim_success_is_faithful_witness :
  exists c,
    Sim.content_of "/d/a.txt" demo = Some c /\
    Sim.content_of "/d/sub/a.txt" (snd (Copy2 "/d/a.txt" "/d/sub" None demo))
      = Some c.
Proof.
  destruct (Copy2 "/d/a.txt" "/d/sub" None demo) as [[p err] w'] eqn:H.
  assert (E : p = "/d/sub/a.txt" /\ err = None).
  { pose proof H as H'. vm_compute in H'. inversion H'. split; reflexivity. }
  destruct E as [-> ->].
  exact (proj2 (Sim_success_is_faithful "/d/a.txt" "/d/sub" None demo
                  demo_fresh eq_refl) _ _ H).
Defined.

Lemma Sim_CopyFile_round_trip_witness :
  fst (Copy2 "/d/a.txt" "/x" None demo) = ("/x", None) /\
  Sim.content_of "/x" (snd (Copy2 "/d/a.txt" "/x" None demo)) = Some "hello".
Proof.
  pose proof (Sim_CopyFile_round_trip "/d/a.txt" "/x" None demo "hello"
                eq_refl eq_refl eq_refl demo_fresh eq_refl eq_refl) as H.
  cbv zeta in H. destruct H as (_ & H1 & H2 & _). split; assumption.
Defined.

Lemma Sim_CopyFile_any_disk_witness :
  exists k,
    Sim.content_of "/b.txt" (snd (CopyFile "/a.txt" "/b.txt" None nearly_full))
      = Some (substring 0 k "hello").
Proof.
  assert (Hfresh : fresh_numbers nearly_full) by (repeat split).
  exact (proj1 (Sim_CopyFile_any_disk "/a.txt" "/b.txt" None nearly_full "hello"
                  eq_refl eq_refl eq_refl Hfresh)).
Defined.

Lemma Sim_CopyFile_spares_src_witness :
  Sim.content_of "/d/a.txt" (snd (CopyFile "/d/a.txt" "/d/b.txt" None demo))
    = Some "hello".
Proof.
  exact (Sim_CopyFile_spares_src "/d/a.txt" "/d/b.txt" None demo "hello"
           eq_refl demo_fresh).
Defined.

Lemma Sim_CopyFile_no_leak_witness :
  Sim.open_files (snd (CopyFile "/d/a.txt" "/nowhere/x" None demo))
    = Sim.open_files demo.
Proof.
  exact (Sim_CopyFile_no_leak "/d/a.txt" "/nowhere/x" None demo demo_fresh).
Defined.

Lemma CopyFile_closes_files_witness :
  CopyFile "/d/a.txt" "/nowhere/x" None demo
    = (("", Some (PathError "open" "/nowhere/x" ENOENT)),
       snd (Sim.Close 3 (snd (Sim.Open "/d/a.txt" demo)))).
Proof.
  pose proof (CopyFile_closes_files (os := Sim.os) "/d/a.txt" "/nowhere/x" None
                demo a_txt eq_refl eq_refl eq_refl eq_refl) as H.
  exact H.
Defined.



